(** * Mock API server ([server/server.js]): model and verified properties

    The server keeps one process-wide table, [mockLogs], from parser name to
    an array of log lines, and serves three routes: [/start_parser],
    [/start_table_process] and [/get_logs/parser=...].

    Modelling choices.
    - JavaScript strings are [string]; [undefined] is a constructor of
      [jsval].  A query parameter is [undefined] or a string.
    - [mockLogs] is an association list in the insertion order of the object
      literal, which is the order [Object.keys] enumerates.
    - Handlers run in a state monad over [World] (the table, the console and
      the positions in the clock and random streams).  What the JavaScript
      runtime supplies is gathered in [Runtime]: [toLowerCase], the readings
      of the clock, the draws of [Math.random], and the number formatters.
      Every theorem holds for every runtime.
    - Numbers that take part in arithmetic are IEEE-754 binary64 values,
      [spec_float] with [prec = 53] and [emax = 1024], and the operations are
      the correctly rounded ones of [SpecFloat].
    - [setTimeout(cb, delay)] makes the handler return [Scheduled delay cb];
      the server state keeps the pending callbacks and an event fires one. *)

From Stdlib Require Import ZArith List String Ascii Bool Arith Lia.
From Stdlib Require Import QArith Qpower.
From Stdlib Require Import DecimalString.
From Stdlib Require Import Floats.SpecFloat.
Import ListNotations.

Local Close Scope Q_scope.
Local Open Scope list_scope.
Local Open Scope string_scope.

(** ** JavaScript values and strings *)

Inductive jsval : Type :=
| Undefined
| JStr (s : string).

(** Truthiness of a value that is a string or [undefined]. *)
Definition truthy (v : jsval) : bool :=
  match v with
  | Undefined => false
  | JStr EmptyString => false
  | JStr _ => true
  end.

(** Conversion performed by a template literal. *)
Definition ToString (v : jsval) : string :=
  match v with
  | Undefined => "undefined"
  | JStr s => s
  end.

(** [a || b] where [b] is a string. *)
Definition or_else (a : jsval) (b : string) : string :=
  match a with
  | Undefined => b
  | JStr EmptyString => b
  | JStr s => s
  end.

Definition LF : string := String (ascii_of_nat 10) EmptyString.

(** The double-quote character. *)
Definition DQ : string := String (ascii_of_nat 34) EmptyString.

(** Decimal rendering of a non-negative integer in a template literal. *)
Definition dec (n : nat) : string := NilEmpty.string_of_uint (Nat.to_uint n).

(** [s.substring(2)]. *)
Definition substring_from2 (s : string) : string :=
  String.substring 2 (String.length s - 2) s.

(** [xs.join(sep)]. *)
Fixpoint join (sep : string) (xs : list string) : string :=
  match xs with
  | [] => EmptyString
  | [x] => x
  | x :: rest => x ++ sep ++ join sep rest
  end.

(** [Array.prototype.find]. *)
Fixpoint array_find (p : string -> bool) (xs : list string) : jsval :=
  match xs with
  | [] => Undefined
  | x :: rest => if p x then JStr x else array_find p rest
  end.

(** ** Binary64 numbers *)

Definition prec : Z := 53.
Definition emax : Z := 1024.

Definition number : Type := spec_float.

(** The double that an integer literal denotes. *)
Definition Num (z : Z) : number := binary_normalize prec emax z 0 false.

Definition num_mul : number -> number -> number := SFmul prec emax.
Definition num_add : number -> number -> number := SFadd prec emax.
Definition num_lt : number -> number -> bool := SFltb.

(** The literal [0.2]: 0x1.999999999999ap-3, the double nearest to 1/5. *)
Definition num_0_2 : number := S754_finite false 7205759403792794 (-55).

(** Exact rational value of a finite double. *)
Definition SF2Q (x : number) : Q :=
  match x with
  | S754_finite s m e =>
      inject_Z (cond_Zopp s (Zpos m)) * Qpower 2 e
  | _ => 0
  end.

Definition is_finite (x : number) : bool :=
  match x with
  | S754_zero _ | S754_finite _ _ _ => true
  | _ => false
  end.

(** A possible result of [Math.random()]: a double [r] with [0 <= r < 1]. *)
Definition unit_draw (r : number) : Prop :=
  valid_binary prec emax r = true /\
  is_finite r = true /\
  (0 <= SF2Q r)%Q /\ (SF2Q r < 1)%Q.

(** ** Notions used to reason about binary64 rounding *)

Section RoundingNotions.

Local Open Scope Z_scope.

(** The location that a remainder [rem] in [0, n2) denotes. *)
Definition loc_of_rem (rem n2 : Z) : location :=
  if rem =? 0 then loc_Exact else loc_Inexact (2 * rem ?= n2).

Definition shr_inv (m n : Z) (mrs : shr_record) : Prop :=
  0 <= shr_m mrs /\
  exists rem, 0 <= rem < 2 ^ n /\ m = shr_m mrs * 2 ^ n + rem /\
              loc_of_shr_record mrs = loc_of_rem rem (2 ^ n).

(** The part of [binary_round_aux] after the first rounding. *)
Definition round_finish (m1 e1 : Z) : spec_float :=
  let '(mrs, e2) := shr_fexp prec emax m1 e1 loc_Exact in
  match shr_m mrs with
  | Z0 => S754_zero false
  | Zpos m => if e2 <=? emax - prec then S754_finite false m e2
              else S754_infinity false
  | Zneg _ => S754_nan
  end.

Local Open Scope Q_scope.

(** The rational [m * 2^e]. *)
Definition dyadic (m e : Z) : Q := inject_Z m * 2 ^ e.


(** The non-negative double with mantissa [q] and exponent [e]. *)
Definition nonneg_double (q e : Z) : spec_float :=
  match q with
  | Z0 => S754_zero false
  | Zpos p => S754_finite false p e
  | Zneg _ => S754_nan
  end.

End RoundingNotions.

(** ** The runtime *)

Record Runtime : Type := {
  toLowerCase : string -> string;      (* String.prototype.toLowerCase *)
  now_iso : nat -> string;             (* n-th [new Date().toISOString()] *)
  random : nat -> number;              (* n-th [Math.random()] *)
  toFixed0 : number -> string;         (* [x.toFixed(0)] *)
  toString36 : number -> string        (* [x.toString(36)] *)
}.

(** ** The world *)

Inductive Level : Type := LOG | WARN | ERROR.

Definition LogStore : Type := list (string * list string).

Record World : Type := {
  mockLogs : LogStore;
  console : list (Level * string);
  clock : nat;
  rng : nat
}.

(** [const mockLogs = { Sale: [], CurrencyInfo: [], ... }]. *)
Definition initial_mockLogs : LogStore :=
  [ ("Sale", []);
    ("CurrencyInfo", []);
    ("PackageIdPrice", []);
    ("PackageIdSaleInfo", []);
    ("BundleIdSaleInfo", []) ].

Definition known_keys : list string :=
  [ "Sale"; "CurrencyInfo"; "PackageIdPrice"; "PackageIdSaleInfo";
    "BundleIdSaleInfo" ].

(** [Object.keys(store)]. *)
Definition Object_keys (s : LogStore) : list string := map fst s.

(** [store[k]], for a key that [Object.keys] returned. *)
Fixpoint array_of (s : LogStore) (k : string) : list string :=
  match s with
  | [] => []
  | (k', v) :: rest => if String.eqb k' k then v else array_of rest k
  end.

(** In-place update of the array stored under [k]. *)
Definition set_array (k : string) (f : list string -> list string)
  (s : LogStore) : LogStore :=
  map (fun kv => if String.eqb (fst kv) k then (fst kv, f (snd kv)) else kv) s.

(** ** The state monad of handlers *)

Definition M (A : Type) : Type := World -> A * World.

Definition ret {A : Type} (a : A) : M A := fun w => (a, w).

Definition bind {A B : Type} (m : M A) (k : A -> M B) : M B :=
  fun w => let (a, w') := m w in k a w'.

Declare Scope js_scope.
Delimit Scope js_scope with js.
Notation "x <- m ;; k" := (bind m (fun x => k))
  (at level 61, m at next level, right associativity) : js_scope.
Notation "m ;; k" := (bind m (fun _ => k))
  (at level 61, right associativity) : js_scope.
Local Open Scope js_scope.

Definition get_store : M LogStore := fun w => (mockLogs w, w).

Definition modify_store (f : LogStore -> LogStore) : M unit :=
  fun w => (tt, {| mockLogs := f (mockLogs w); console := console w;
                   clock := clock w; rng := rng w |}).

Definition print (l : Level) (msg : string) : M unit :=
  fun w => (tt, {| mockLogs := mockLogs w; console := (console w ++ [(l, msg)])%list;
                   clock := clock w; rng := rng w |}).

Definition console_log : string -> M unit := print LOG.
Definition console_warn : string -> M unit := print WARN.
Definition console_error : string -> M unit := print ERROR.

(** [xs.push(x)], [xs.length], [xs.shift()] and [xs.join(sep)] on [mockLogs[k]]. *)
Definition array_push (k x : string) : M unit :=
  modify_store (set_array k (fun xs => (xs ++ [x])%list)).

Definition array_length (k : string) : M nat :=
  s <- get_store ;; ret (List.length (array_of s k)).

Definition array_shift (k : string) : M unit :=
  modify_store (set_array k (@tl string)).

Definition array_join (k sep : string) : M string :=
  s <- get_store ;; ret (join sep (array_of s k)).

(** ** HTTP messages *)

Inductive JSON : Type :=
| JNumber (n : Z)
| JString (s : string).

Record Response : Type := {
  statusCode : Z;
  body : list (string * JSON)
}.

(** [res.status(code).json(obj)]. *)
Definition res_status_json (code : Z) (obj : list (string * JSON)) : Response :=
  {| statusCode := code; body := obj |}.

Record Request : Type := {
  query_parser : jsval;     (* req.query.parser *)
  query_method : jsval;     (* req.query.method *)
  query_args : jsval;       (* req.query.args *)
  remotePort : nat;         (* req.connection.remotePort *)
  params0 : string;         (* req.params[0] *)
  method : string;          (* req.method *)
  originalUrl : string      (* req.originalUrl *)
}.

(** What a handler has done when it returns: answered, or armed a timer. *)
Inductive Outcome : Type :=
| Replied (r : Response)
| Scheduled (delay : number) (callback : M Response).

Section Server.

Variable rt : Runtime.

Definition new_Date_toISOString : M string :=
  fun w => (now_iso rt (clock w),
            {| mockLogs := mockLogs w; console := console w;
               clock := S (clock w); rng := rng w |}).

Definition Math_random : M number :=
  fun w => (random rt (rng w),
            {| mockLogs := mockLogs w; console := console w;
               clock := clock w; rng := S (rng w) |}).

(** [Object.keys(mockLogs).find(k => k.toLowerCase() === parserName.toLowerCase())]. *)
Definition find_key (s : LogStore) (parserName : string) : jsval :=
  array_find
    (fun k => String.eqb (toLowerCase rt k) (toLowerCase rt parserName))
    (Object_keys s).

Definition find_logKey (parserName : string) : M jsval :=
  s <- get_store ;; ret (find_key s parserName).

(** ** [addLog] *)

Definition addLog (parserName message : string) : M unit :=
  logKey <- find_logKey parserName ;;
  if truthy logKey then
    let logKey := ToString logKey in
    timestamp <- new_Date_toISOString ;;
    array_push logKey ("[" ++ timestamp ++ "] " ++ message) ;;
    len <- array_length logKey ;;
    (if Nat.ltb 20 len then array_shift logKey else ret tt) ;;
    console_log ("Log added for " ++ logKey ++ ": " ++ message)
  else
    console_warn ("Attempted to add log for unknown parser: " ++ parserName).

(** ** [/start_parser] *)

Definition parser_delay (r : number) : number :=
  num_add (num_mul r (Num 3000)) (Num 1000).

Definition shouldFail (effectiveParserName : string) : M bool :=
  if String.eqb effectiveParserName "CurrencyInfo" then
    r <- Math_random ;; ret (num_lt r num_0_2)
  else ret false.

Definition parser_failure (parserName : string) : Response :=
  res_status_json 500
    [ ("status", JNumber 500);
      ("message", JString ("Mock error during " ++ parserName ++ " parsing"));
      ("parser", JString parserName) ].

Definition parser_success (parserName : string) : Response :=
  res_status_json 200
    [ ("status", JNumber 200);
      ("message", JString ("Parser " ++ parserName
                           ++ " started and finished successfully (mock)."));
      ("parser", JString parserName) ].

(** The function passed to [setTimeout] by [/start_parser]. *)
Definition start_parser_callback (parserName effectiveParserName : string)
  : M Response :=
  fail <- shouldFail effectiveParserName ;;
  if fail then
    console_log ("Simulating FAILURE for parser: " ++ parserName) ;;
    addLog effectiveParserName "Parser execution FAILED." ;;
    ret (parser_failure parserName)
  else
    console_log ("Simulating SUCCESS for parser: " ++ parserName) ;;
    addLog effectiveParserName "Parser execution finished successfully." ;;
    ret (parser_success parserName).

Definition missing_parser : Response :=
  res_status_json 400
    [ ("status", JNumber 400);
      ("message", JString ("Query parameter " ++ DQ ++ "parser" ++ DQ ++ " is required")) ].

Definition start_parser (req : Request) : M Outcome :=
  let parserName := query_parser req in
  now <- new_Date_toISOString ;;
  console_log (LF ++ "[" ++ now ++ "] Received /start_parser request for: "
               ++ ToString parserName ++ " from port " ++ dec (remotePort req)) ;;
  if negb (truthy parserName) then
    console_error "Error: Missing parser name" ;;
    ret (Replied missing_parser)
  else
    let parserName := ToString parserName in
    logKey <- find_logKey parserName ;;
    (if negb (truthy logKey) then
       console_warn ("Warning: Unknown parser name requested: " ++ parserName
                     ++ ". Proceeding anyway.")
     else ret tt) ;;
    let effectiveParserName := or_else logKey parserName in
    addLog effectiveParserName "Parser start requested." ;;
    r <- Math_random ;;
    let delay := parser_delay r in
    console_log ("Simulating work for " ++ parserName ++ " for "
                 ++ toFixed0 rt delay ++ "ms...") ;;
    ret (Scheduled delay (start_parser_callback parserName effectiveParserName)).

(** ** [/start_table_process] *)

Definition table_delay (r : number) : number :=
  num_add (num_mul r (Num 1000)) (Num 500).

Definition table_success (methodName : string) : Response :=
  res_status_json 200
    [ ("status", JNumber 200);
      ("message", JString ("Table process " ++ methodName
                           ++ " finished successfully (mock)."));
      ("method", JString methodName) ].

Definition start_table_process_callback (methodName : string) : M Response :=
  console_log ("Simulating SUCCESS for table process: " ++ methodName) ;;
  ret (table_success methodName).

Definition missing_method : Response :=
  res_status_json 400
    [ ("status", JNumber 400);
      ("message", JString ("Query parameter " ++ DQ ++ "method" ++ DQ ++ " is required")) ].

(** [args !== JSON-text-of-main-array], the strict comparison of the handler. *)
Definition args_mismatch (args : jsval) : bool :=
  match args with
  | Undefined => true
  | JStr s => negb (String.eqb s ("[" ++ DQ ++ "main" ++ DQ ++ "]"))
  end.

Definition start_table_process (req : Request) : M Outcome :=
  let methodName := query_method req in
  let args := query_args req in
  now <- new_Date_toISOString ;;
  console_log (LF ++ "[" ++ now ++ "] Received /start_table_process request for: "
               ++ ToString methodName ++ ", args: " ++ ToString args) ;;
  if negb (truthy methodName) then
    console_error "Error: Missing method name" ;;
    ret (Replied missing_method)
  else
    let methodName := ToString methodName in
    (if String.eqb methodName "set_shop_price" && args_mismatch args then
       console_warn ("Warning: Expected args='[" ++ DQ ++ "main" ++ DQ
                     ++ "]' for set_shop_price, but received: "
                     ++ ToString args)
     else ret tt) ;;
    r <- Math_random ;;
    let delay := table_delay r in
    console_log ("Simulating work for " ++ methodName ++ " for "
                 ++ toFixed0 rt delay ++ "ms...") ;;
    ret (Scheduled delay (start_table_process_callback methodName)).

(** ** [/get_logs/parser=...] *)

Definition unknown_parser_logs (parserName : string) : Response :=
  res_status_json 404
    [ ("status", JNumber 404);
      ("message", JString ("No logs found for unknown parser: " ++ parserName)) ].

Definition logs_reply (logsToSend : string) : Response :=
  res_status_json 200
    [ ("status", JNumber 200);
      ("message", JString logsToSend) ].

Definition no_logs_yet (timestamp logKey : string) : string :=
  "[" ++ timestamp ++ "] No logs recorded yet for " ++ logKey ++ ".".

Definition long_log_start : string := LF ++ "----- START LONG LOG -----" ++ LF.
Definition long_log_end : string := "----- END LONG LOG -----".

(** The text added by one turn of the loop, for loop index [i] and draw [r]. *)
Definition long_log_line (i : nat) (r : number) : string :=
  "This is a very long log line number " ++ dec (i + 1)
  ++ " to test the file sending feature. Count: "
  ++ substring_from2 (toString36 rt r) ++ "." ++ LF.

(** [for (let i = ...; i < ...; i++) logsToSend += ...], with [remaining]
    turns left. *)
Fixpoint long_log_loop (remaining i : nat) (logsToSend : string) : M string :=
  match remaining with
  | O => ret logsToSend
  | S remaining' =>
      r <- Math_random ;;
      long_log_loop remaining' (S i) (logsToSend ++ long_log_line i r)
  end.

Definition get_logs (req : Request) : M Outcome :=
  let parserName := params0 req in
  now <- new_Date_toISOString ;;
  console_log (LF ++ "[" ++ now ++ "] Received /get_logs request for: "
               ++ parserName) ;;
  logKey <- find_logKey parserName ;;
  if negb (truthy logKey) then
    console_error ("Error: Unknown parser name for logs: " ++ parserName) ;;
    ret (Replied (unknown_parser_logs parserName))
  else
    let logKey := ToString logKey in
    console_log ("Returning logs for " ++ logKey) ;;
    len <- array_length logKey ;;
    logsToSend <-
      (if Nat.ltb 0 len then array_join logKey LF
       else now <- new_Date_toISOString ;; ret (no_logs_yet now logKey)) ;;
    len <- array_length logKey ;;
    logsToSend <-
      (if String.eqb logKey "Sale" && Nat.ltb 0 len then
         logsToSend <- long_log_loop 500 0 (logsToSend ++ long_log_start) ;;
         let logsToSend := logsToSend ++ long_log_end in
         console_log ("Generated long log for " ++ logKey ++ ". Total length: "
                      ++ dec (String.length logsToSend)) ;;
         ret logsToSend
       else ret logsToSend) ;;
    ret (Replied (logs_reply logsToSend)).

(** ** Unmatched routes and start-up *)

Definition endpoint_not_found : Response :=
  res_status_json 404
    [ ("status", JNumber 404);
      ("message", JString "Endpoint not found") ].

Definition fallback (req : Request) : M Outcome :=
  now <- new_Date_toISOString ;;
  console_log (LF ++ "[" ++ now ++ "] Received request for unknown route: "
               ++ method req ++ " " ++ originalUrl req) ;;
  ret (Replied endpoint_not_found).

(** The callback of [app.listen]. *)
Definition on_listening : M unit :=
  s <- get_store ;;
  console_log "Mock API server listening at 0.0.0.0:8081" ;;
  console_log "Available endpoints:" ;;
  console_log "  GET /start_parser?parser={parserName}" ;;
  console_log "  GET /start_table_process?method={methodName}&args={jsonStringArray}" ;;
  console_log "  GET /get_logs/parser={parserName}" ;;
  console_log (LF ++ "Known parser names for logs: " ++ join ", " (Object_keys s)) ;;
  console_log ("Method names: PackageIdSaleInfo, BundleIdSaleInfo, set_final_price, "
               ++ "set_delivery_region, set_shop_price, CurrencyInfo, PackageIdPrice") ;;
  console_log (LF ++ "Waiting for requests...").

(** ** The server as a transition system *)

Record Server : Type := {
  world : World;
  pending : list (number * M Response)     (* armed timers *)
}.

Inductive Event : Type :=
| Listening
| GET_start_parser (req : Request)
| GET_start_table_process (req : Request)
| GET_get_logs (req : Request)
| Unmatched (req : Request)
| Timeout (n : nat).                       (* the n-th armed timer fires *)

(** State after the module body has run. *)
Definition boot : Server :=
  {| world := {| mockLogs := initial_mockLogs;
                 console := [(LOG, "Initializing Mock API...")];
                 clock := 0; rng := 0 |};
     pending := [] |}.

Definition handle (h : M Outcome) (sv : Server) : Server * option Response :=
  match fst (h (world sv)) with
  | Replied r =>
      ({| world := snd (h (world sv)); pending := pending sv |}, Some r)
  | Scheduled delay cb =>
      ({| world := snd (h (world sv)); pending := (pending sv ++ [(delay, cb)])%list |},
       None)
  end.

Definition fire (n : nat) (sv : Server) : Server * option Response :=
  match nth_error (pending sv) n with
  | Some (_, cb) =>
      ({| world := snd (cb (world sv));
          pending := (firstn n (pending sv) ++ skipn (S n) (pending sv))%list |},
       Some (fst (cb (world sv))))
  | None => (sv, None)
  end.

Definition step (ev : Event) (sv : Server) : Server * option Response :=
  match ev with
  | Listening =>
      ({| world := snd (on_listening (world sv)); pending := pending sv |}, None)
  | GET_start_parser req => handle (start_parser req) sv
  | GET_start_table_process req => handle (start_table_process req) sv
  | GET_get_logs req => handle (get_logs req) sv
  | Unmatched req => handle (fallback req) sv
  | Timeout n => fire n sv
  end.

Fixpoint run (evs : list Event) (sv : Server) : Server :=
  match evs with
  | [] => sv
  | ev :: rest => run rest (fst (step ev sv))
  end.

(** A sequence of [addLog(name, message)] calls. *)
Fixpoint addLogs (calls : list (string * string)) : M unit :=
  match calls with
  | [] => ret tt
  | (parserName, message) :: rest => addLog parserName message ;; addLogs rest
  end.

(** ** Notions used to state the properties *)

(** The line [addLog] stores for [message] when the clock is at [clock w]. *)
Definition log_line (w : World) (message : string) : string :=
  "[" ++ now_iso rt (clock w) ++ "] " ++ message.

(** An array after one more line is pushed and the front is shifted out when
    that makes more than 20 lines. *)
Definition pushed (old : list string) (line : string) : list string :=
  if Nat.ltb 20 (List.length old + 1) then tl (old ++ [line])%list
  else (old ++ [line])%list.

(** Every array of the table has at most 20 lines. *)
Definition within_capacity (s : LogStore) : Prop :=
  forall k, (List.length (array_of s k) <= 20)%nat.

(** The name [/start_parser] passes to [addLog]:
    [effectiveParserName = logKey || parserName]. *)
Definition effective_name (s : LogStore) (name : string) : string :=
  or_else (find_key s name) name.

(** The synthetic block, when the first draw of the loop is the [d]-th. *)
Definition long_log_block (d : nat) : string :=
  long_log_start
  ++ String.concat EmptyString
       (map (fun j => long_log_line j (random rt (d + j))) (seq 0 500))
  ++ long_log_end.

(** The callbacks that the handlers pass to [setTimeout]. *)
Inductive armed : M Response -> Prop :=
| armed_parser (parserName effectiveParserName : string) :
    armed (start_parser_callback parserName effectiveParserName)
| armed_table (methodName : string) :
    armed (start_table_process_callback methodName).

(** What holds of every reachable server state when [P] holds of its table. *)
Definition server_inv (P : LogStore -> Prop) (sv : Server) : Prop :=
  P (mockLogs (world sv)) /\ Forall (fun t => armed (snd t)) (pending sv).

(** Where an armed callback comes from: a [/start_parser] request whose
    resolved name equals the supplied one up to case, or a
    [/start_table_process] request. *)
Definition timer_origin (cb : M Response) : Prop :=
  (exists name eff,
      cb = start_parser_callback name eff /\
      toLowerCase rt eff = toLowerCase rt name) \/
  (exists methodName, cb = start_table_process_callback methodName).

End Server.

(** ** A concrete runtime, for closed examples *)

Definition ascii_lower (c : ascii) : ascii :=
  let n := nat_of_ascii c in
  if (Nat.leb 65 n && Nat.leb n 90)%bool then ascii_of_nat (n + 32) else c.

Fixpoint ascii_toLowerCase (s : string) : string :=
  match s with
  | EmptyString => EmptyString
  | String c rest => String (ascii_lower c) (ascii_toLowerCase rest)
  end.

(** The largest double below 1, [1 - 2^-53]. *)
Definition below_one : number := S754_finite false 9007199254740991 (-53).

(** Draws alternate between [1 - 2^-53] and [0]. *)
Definition demo_runtime : Runtime :=
  {| toLowerCase := ascii_toLowerCase;
     now_iso := fun n => "2024-01-01T00:00:00." ++ dec n ++ "Z";
     random := fun n => if Nat.even n then below_one else S754_zero false;
     toFixed0 := fun _ => "4000";
     toString36 := fun _ => "0.zzzzzzzzzzz" |}.

Definition demo_request (parser method_ args : jsval) (name : string) : Request :=
  {| query_parser := parser; query_method := method_; query_args := args;
     remotePort := 4242; params0 := name; method := "GET";
     originalUrl := "/" |}.

(** The [message] field of an immediate answer. *)
Definition reply_message (o : Outcome) : string :=
  match o with
  | Replied {| body := [_; (_, JString m)] |} => m
  | _ => EmptyString
  end.

(** * Properties *)

(** The literal [0.2] is the correctly rounded quotient 1/5. *)
Example num_0_2_is_one_fifth : SFdiv prec emax (Num 1) (Num 5) = num_0_2.
Proof. reflexivity. Qed.

(** ** The table as an association list *)

Lemma Object_keys_set_array (k : string) (f : list string -> list string)
  (s : LogStore) :
  Object_keys (set_array k f s) = Object_keys s.
Proof.
  unfold Object_keys, set_array. rewrite map_map.
  apply map_ext. intros [k' v]; simpl.
  destruct (String.eqb k' k); reflexivity.
Qed.

Lemma array_of_set_array_same (k : string) (f : list string -> list string)
  (s : LogStore) :
  In k (Object_keys s) ->
  array_of (set_array k f s) k = f (array_of s k).
Proof.
  induction s as [|[k' v] s IH]; simpl; intros Hin.
  - contradiction.
  - destruct (String.eqb_spec k' k) as [->|Hne]; simpl.
    + rewrite String.eqb_refl. reflexivity.
    + destruct (String.eqb_spec k' k) as [E|_]; [contradiction|].
      apply IH. destruct Hin as [E|Hin]; [contradiction|exact Hin].
Qed.

Lemma array_of_set_array_other (k k' : string) (f : list string -> list string)
  (s : LogStore) :
  k' <> k ->
  array_of (set_array k f s) k' = array_of s k'.
Proof.
  intros Hne. induction s as [|[k0 v] s IH]; simpl; [reflexivity|].
  destruct (String.eqb_spec k0 k) as [->|Hk]; simpl.
  - destruct (String.eqb_spec k k') as [E|_]; [congruence|exact IH].
  - destruct (String.eqb k0 k'); [reflexivity|exact IH].
Qed.

Lemma array_find_In (p : string -> bool) (xs : list string) (k : string) :
  array_find p xs = JStr k -> In k xs /\ p k = true.
Proof.
  induction xs as [|x xs IH]; simpl; [discriminate|].
  destruct (p x) eqn:Hp.
  - intros [= ->]. split; [left; reflexivity|exact Hp].
  - intros H. destruct (IH H) as [Hin Hk]. split; [right; exact Hin|exact Hk].
Qed.

Lemma array_find_Undefined (p : string -> bool) (xs : list string) :
  array_find p xs = Undefined <-> forall k, In k xs -> p k = false.
Proof.
  induction xs as [|x xs IH]; simpl.
  - split; [intros _ k []|reflexivity].
  - destruct (p x) eqn:Hp.
    + split; [discriminate|]. intros H.
      rewrite (H x (or_introl eq_refl)) in Hp. discriminate.
    + rewrite IH. split.
      * intros H k [<-|Hin]; [exact Hp|exact (H k Hin)].
      * intros H k Hin. apply H. right; exact Hin.
Qed.

Lemma truthy_JStr (v : jsval) :
  truthy v = true -> v = JStr (ToString v) /\ ToString v <> EmptyString.
Proof.
  destruct v as [|[|c s]]; simpl; try discriminate.
  intros _. split; [reflexivity|discriminate].
Qed.

Lemma or_else_truthy (v : jsval) (b : string) :
  truthy v = true -> or_else v b = ToString v.
Proof. destruct v as [|[|c s]]; simpl; try discriminate; reflexivity. Qed.

Lemma or_else_falsy (v : jsval) (b : string) :
  truthy v = false -> or_else v b = b.
Proof. destruct v as [|[|c s]]; simpl; try discriminate; reflexivity. Qed.

Lemma bind_run {A B : Type} (m : M A) (k : A -> M B) (w : World) :
  bind m k w = k (fst (m w)) (snd (m w)).
Proof. unfold bind. destruct (m w). reflexivity. Qed.

(** Runs the monadic primitives of a handler body on the current world. *)
Ltac js_run :=
  repeat (unfold bind, ret, find_logKey, get_store, modify_store, print,
            console_log, console_warn, console_error, array_push,
            array_length, array_shift, array_join, new_Date_toISOString,
            Math_random;
          cbn [fst snd negb mockLogs console clock rng];
          try match goal with
              | |- context [match addLog ?rt ?n ?m ?w with pair _ _ => _ end] =>
                  rewrite (surjective_pairing (addLog rt n m w))
              end).

Section Properties.

Variable rt : Runtime.

Lemma find_key_In (s : LogStore) (name k : string) :
  find_key rt s name = JStr k ->
  In k (Object_keys s) /\ toLowerCase rt k = toLowerCase rt name.
Proof.
  unfold find_key. intros H. apply array_find_In in H.
  destruct H as [Hin Hp]. split; [exact Hin|].
  apply String.eqb_eq. exact Hp.
Qed.

Lemma find_key_no_match (s : LogStore) (name : string) :
  (forall k, In k (Object_keys s) ->
             toLowerCase rt k <> toLowerCase rt name) ->
  find_key rt s name = Undefined.
Proof.
  intros H. unfold find_key. apply array_find_Undefined.
  intros k Hin. apply String.eqb_neq. exact (H k Hin).
Qed.

(** The table after [addLog], in terms of the table before. *)
Lemma addLog_mockLogs (name message : string) (w : World) :
  mockLogs (snd (addLog rt name message w)) =
  if truthy (find_key rt (mockLogs w) name) then
    let k := ToString (find_key rt (mockLogs w) name) in
    let s1 := set_array k (fun xs => (xs ++ [log_line rt w message])%list)
                (mockLogs w) in
    if Nat.ltb 20 (List.length (array_of s1 k)) then set_array k (@tl string) s1
    else s1
  else mockLogs w.
Proof.
  unfold addLog. js_run.
  destruct (truthy (find_key rt (mockLogs w) name)); js_run; [|reflexivity].
  unfold log_line.
  match goal with |- context [Nat.ltb 20 ?n] => destruct (Nat.ltb 20 n) end;
    js_run; reflexivity.
Qed.

Lemma addLog_unmatched (name message : string) (w : World) :
  truthy (find_key rt (mockLogs w) name) = false ->
  mockLogs (snd (addLog rt name message w)) = mockLogs w.
Proof. intros H. rewrite addLog_mockLogs, H. reflexivity. Qed.

Lemma addLog_keys (name message : string) (w : World) :
  Object_keys (mockLogs (snd (addLog rt name message w))) =
  Object_keys (mockLogs w).
Proof.
  rewrite addLog_mockLogs.
  destruct (truthy _); [|reflexivity]. cbv zeta.
  destruct (Nat.ltb _ _); rewrite ?Object_keys_set_array; reflexivity.
Qed.

(** The array under the matched key after [addLog]: the new line goes to the
    back, and the front is dropped when that makes more than 20 lines. *)
Lemma addLog_matched (name message : string) (w : World) :
  truthy (find_key rt (mockLogs w) name) = true ->
  let k := ToString (find_key rt (mockLogs w) name) in
  let old := array_of (mockLogs w) k in
  array_of (mockLogs (snd (addLog rt name message w))) k =
  if Nat.ltb 20 (List.length old + 1)
  then tl (old ++ [log_line rt w message])%list
  else (old ++ [log_line rt w message])%list.
Proof.
  intros Ht k old. rewrite addLog_mockLogs, Ht. cbv zeta. fold k.
  destruct (truthy_JStr _ Ht) as [Hk _]. fold k in Hk.
  destruct (find_key_In _ _ _ Hk) as [Hin _].
  rewrite array_of_set_array_same by exact Hin. fold old.
  rewrite length_app. simpl List.length.
  destruct (Nat.ltb 20 (List.length old + 1)).
  - rewrite array_of_set_array_same
      by (rewrite Object_keys_set_array; exact Hin).
    rewrite array_of_set_array_same by exact Hin. reflexivity.
  - rewrite array_of_set_array_same by exact Hin. reflexivity.
Qed.

Lemma addLog_other (name message k' : string) (w : World) :
  JStr k' <> find_key rt (mockLogs w) name ->
  array_of (mockLogs (snd (addLog rt name message w))) k' =
  array_of (mockLogs w) k'.
Proof.
  intros Hne. rewrite addLog_mockLogs.
  destruct (truthy _) eqn:Ht; [|reflexivity]. cbv zeta.
  destruct (truthy_JStr _ Ht) as [Hk _].
  assert (k' <> ToString (find_key rt (mockLogs w) name)) as Hk'
      by (intros ->; apply Hne; exact (eq_sym Hk)).
  destruct (Nat.ltb _ _); rewrite ?array_of_set_array_other by exact Hk';
    reflexivity.
Qed.

Lemma addLog_within_capacity (name message : string) (w : World) :
  within_capacity (mockLogs w) ->
  within_capacity (mockLogs (snd (addLog rt name message w))).
Proof.
  intros Hw k.
  destruct (truthy (find_key rt (mockLogs w) name)) eqn:Ht.
  - destruct (truthy_JStr _ Ht) as [Hk _].
    destruct (String.eqb_spec k (ToString (find_key rt (mockLogs w) name)))
      as [->|Hne].
    + rewrite (addLog_matched _ _ _ Ht).
      pose proof (Hw (ToString (find_key rt (mockLogs w) name))) as Hlen.
      destruct (Nat.ltb_spec 20
                  (List.length (array_of (mockLogs w)
                     (ToString (find_key rt (mockLogs w) name))) + 1)).
      * destruct (array_of (mockLogs w) _) as [|x xs]; simpl in *; [lia|].
        rewrite length_app. simpl. lia.
      * rewrite length_app. simpl. lia.
    + rewrite addLog_other; [apply Hw|].
      rewrite Hk. intros [= E]. exact (Hne E).
  - rewrite addLog_unmatched by exact Ht. apply Hw.
Qed.

Lemma addLogs_within_capacity (calls : list (string * string)) (w : World) :
  within_capacity (mockLogs w) ->
  within_capacity (mockLogs (snd (addLogs rt calls w))).
Proof.
  revert w. induction calls as [|[name message] calls IH]; intros w Hw.
  - exact Hw.
  - cbn [addLogs]. rewrite bind_run. apply IH.
    apply addLog_within_capacity. exact Hw.
Qed.

Lemma initial_within_capacity : within_capacity initial_mockLogs.
Proof.
  intros k. unfold initial_mockLogs. cbn [array_of].
  repeat match goal with |- context [String.eqb ?a k] =>
    destruct (String.eqb a k) end; simpl; lia.
Qed.

(** *** What the handlers do to the table *)

Lemma find_key_keys (s s' : LogStore) (name : string) :
  Object_keys s' = Object_keys s ->
  find_key rt s' name = find_key rt s name.
Proof. unfold find_key. intros ->. reflexivity. Qed.

Lemma array_find_ext (p q : string -> bool) (xs : list string) :
  (forall x, p x = q x) -> array_find p xs = array_find q xs.
Proof.
  intros H. induction xs as [|x xs IH]; simpl; [reflexivity|].
  rewrite H, IH. reflexivity.
Qed.

(** Looking up the canonical key finds that key again. *)
Lemma find_key_canonical (s : LogStore) (name k : string) :
  find_key rt s name = JStr k -> find_key rt s k = JStr k.
Proof.
  intros H. destruct (find_key_In _ _ _ H) as [_ Hl].
  rewrite <- H. unfold find_key. apply array_find_ext.
  intros x. rewrite Hl. reflexivity.
Qed.

Lemma find_key_effective (s : LogStore) (name : string) :
  truthy (find_key rt s (effective_name rt s name)) =
  truthy (find_key rt s name) /\
  (truthy (find_key rt s name) = true ->
   find_key rt s (effective_name rt s name) = find_key rt s name).
Proof.
  unfold effective_name.
  destruct (truthy (find_key rt s name)) eqn:Ht.
  - rewrite or_else_truthy by exact Ht.
    destruct (truthy_JStr _ Ht) as [Hk _].
    rewrite (find_key_canonical _ _ _ Hk).
    rewrite <- Hk. split; [exact Ht|reflexivity].
  - rewrite or_else_falsy by exact Ht. split; [exact Ht|discriminate].
Qed.

Lemma start_parser_missing (req : Request) (w : World) :
  truthy (query_parser req) = false ->
  fst (start_parser rt req w) = Replied missing_parser /\
  mockLogs (snd (start_parser rt req w)) = mockLogs w.
Proof.
  intros Hf. unfold start_parser. js_run. rewrite Hf. js_run.
  split; reflexivity.
Qed.

Lemma addLog_rng (name message : string) (w : World) :
  rng (snd (addLog rt name message w)) = rng w.
Proof.
  unfold addLog. js_run.
  destruct (truthy (find_key rt (mockLogs w) name)); js_run; [|reflexivity].
  match goal with |- context [Nat.ltb 20 ?n] => destruct (Nat.ltb 20 n) end;
    js_run; reflexivity.
Qed.

Lemma addLog_clock (name message : string) (w : World) :
  clock (snd (addLog rt name message w)) =
  if truthy (find_key rt (mockLogs w) name) then S (clock w) else clock w.
Proof.
  unfold addLog. js_run.
  destruct (truthy (find_key rt (mockLogs w) name)); js_run; [|reflexivity].
  match goal with |- context [Nat.ltb 20 ?n] => destruct (Nat.ltb 20 n) end;
    js_run; reflexivity.
Qed.

Lemma start_parser_present (req : Request) (w : World) :
  truthy (query_parser req) = true ->
  let name := ToString (query_parser req) in
  let eff := effective_name rt (mockLogs w) name in
  exists w1,
    mockLogs w1 = mockLogs w /\ clock w1 = S (clock w) /\
    fst (start_parser rt req w) =
      Scheduled (parser_delay (random rt (rng w)))
        (start_parser_callback rt name eff) /\
    mockLogs (snd (start_parser rt req w)) =
      mockLogs (snd (addLog rt eff "Parser start requested." w1)).
Proof.
  intros Ht name eff. unfold eff, effective_name.
  destruct (truthy (find_key rt (mockLogs w) name)) eqn:Hk;
    unfold start_parser; js_run; rewrite Ht; js_run; fold name;
    rewrite Hk; js_run; rewrite addLog_rng; cbn [rng];
    (eexists; split; [|split; [|split; reflexivity]]); reflexivity.
Qed.

Lemma start_parser_callback_run (name eff : string) (v : World) :
  let fail := String.eqb eff "CurrencyInfo"
              && num_lt (random rt (rng v)) num_0_2 in
  fst (start_parser_callback rt name eff v) =
    (if fail then parser_failure name else parser_success name) /\
  exists v1,
    mockLogs v1 = mockLogs v /\ clock v1 = clock v /\
    mockLogs (snd (start_parser_callback rt name eff v)) =
      mockLogs (snd (addLog rt eff
                       (if fail then "Parser execution FAILED."
                        else "Parser execution finished successfully.") v1)).
Proof.
  unfold start_parser_callback, shouldFail.
  destruct (String.eqb eff "CurrencyInfo"); js_run; cbn [andb].
  - destruct (num_lt (random rt (rng v)) num_0_2); js_run;
      (split; [reflexivity|]);
      eexists; (split; [|split; [|reflexivity]]); reflexivity.
  - split; [reflexivity|].
    eexists; (split; [|split; [|reflexivity]]); reflexivity.
Qed.

Lemma start_table_process_missing (req : Request) (w : World) :
  truthy (query_method req) = false ->
  fst (start_table_process rt req w) = Replied missing_method /\
  mockLogs (snd (start_table_process rt req w)) = mockLogs w.
Proof.
  intros Hf. unfold start_table_process. js_run. rewrite Hf. js_run.
  split; reflexivity.
Qed.

Lemma start_table_process_present (req : Request) (w : World) :
  truthy (query_method req) = true ->
  let methodName := ToString (query_method req) in
  fst (start_table_process rt req w) =
    Scheduled (table_delay (random rt (rng w)))
      (start_table_process_callback methodName) /\
  mockLogs (snd (start_table_process rt req w)) = mockLogs w.
Proof.
  intros Ht methodName. unfold start_table_process. js_run. rewrite Ht. js_run.
  fold methodName.
  destruct (String.eqb methodName "set_shop_price"
            && args_mismatch (query_args req)); js_run; split; reflexivity.
Qed.

Lemma start_table_process_callback_run (methodName : string) (v : World) :
  fst (start_table_process_callback methodName v) = table_success methodName /\
  mockLogs (snd (start_table_process_callback methodName v)) = mockLogs v.
Proof. unfold start_table_process_callback. js_run. split; reflexivity. Qed.

(** *** The loop of [/get_logs] *)

Lemma concat_empty_cons (x : string) (xs : list string) :
  String.concat EmptyString (x :: xs) = x ++ String.concat EmptyString xs.
Proof.
  destruct xs as [|y ys]; simpl.
  - induction x as [|c x IH]; simpl; [reflexivity|]. rewrite <- IH. reflexivity.
  - reflexivity.
Qed.

Lemma string_app_assoc (a b c : string) : (a ++ b) ++ c = a ++ (b ++ c).
Proof.
  induction a as [|ch a IH]; simpl; [reflexivity|]. rewrite IH. reflexivity.
Qed.

Lemma long_log_loop_run (n i : nat) (acc : string) (w : World) :
  long_log_loop rt n i acc w =
  (acc ++ String.concat EmptyString
            (map (fun j => long_log_line rt (i + j) (random rt (rng w + j)))
                 (seq 0 n)),
   {| mockLogs := mockLogs w; console := console w; clock := clock w;
      rng := rng w + n |}).
Proof.
  revert i acc w. induction n as [|n IH]; intros i acc w.
  - cbn [long_log_loop seq map String.concat]. unfold ret.
    rewrite Nat.add_0_r. destruct w; cbn [mockLogs console clock rng].
    f_equal. induction acc as [|c acc IHa]; simpl; [reflexivity|].
    rewrite <- IHa. reflexivity.
  - cbn [long_log_loop]. js_run. rewrite IH. cbn [mockLogs console clock rng].
    f_equal.
    + rewrite string_app_assoc. f_equal.
      cbn [seq map]. rewrite concat_empty_cons.
      rewrite !Nat.add_0_r. f_equal. f_equal.
      rewrite <- seq_shift, map_map. apply map_ext.
      intros j. f_equal; [lia|f_equal; lia].
    + f_equal. lia.
Qed.

Lemma string_app_empty_r (a : string) : a ++ EmptyString = a.
Proof. induction a as [|c a IH]; simpl; [reflexivity|]. rewrite IH. reflexivity. Qed.

Lemma get_logs_run (req : Request) (w : World) :
  let name := params0 req in
  let key := find_key rt (mockLogs w) name in
  let arr := array_of (mockLogs w) (ToString key) in
  fst (get_logs rt req w) =
    (if truthy key then
       Replied (logs_reply
         ((if Nat.ltb 0 (List.length arr) then join LF arr
           else no_logs_yet (now_iso rt (S (clock w))) (ToString key))
          ++ (if String.eqb (ToString key) "Sale" && Nat.ltb 0 (List.length arr)
              then long_log_block rt (rng w) else EmptyString)))
     else Replied (unknown_parser_logs name)) /\
  mockLogs (snd (get_logs rt req w)) = mockLogs w.
Proof.
  intros name key arr.
  destruct (truthy key) eqn:Hkey;
    [destruct (Nat.ltb 0 (List.length arr)) eqn:Hlen;
     destruct (String.eqb (ToString key) "Sale") eqn:Hsale|];
    cbn [andb]; unfold get_logs; js_run; fold name; fold key;
    rewrite Hkey; js_run; [fold arr; rewrite Hlen; js_run; fold arr;
                           rewrite Hlen, Hsale; cbn [andb]; js_run ..|].
  - rewrite long_log_loop_run. js_run.
    split; [|reflexivity]. unfold long_log_block.
    rewrite !string_app_assoc. do 4 f_equal.
  - rewrite string_app_empty_r. split; reflexivity.
  - rewrite string_app_empty_r. split; reflexivity.
  - rewrite string_app_empty_r. split; reflexivity.
  - split; reflexivity.
Qed.

Lemma fallback_run (req : Request) (w : World) :
  fst (fallback rt req w) = Replied endpoint_not_found /\
  mockLogs (snd (fallback rt req w)) = mockLogs w.
Proof. unfold fallback. js_run. split; reflexivity. Qed.

Lemma on_listening_mockLogs (w : World) :
  mockLogs (snd (on_listening w)) = mockLogs w.
Proof. unfold on_listening. js_run. reflexivity. Qed.

(** *** Invariants of the table along every run of the server *)

Section Invariant.

Variable P : LogStore -> Prop.

Hypothesis P_addLog :
  forall name message w,
    P (mockLogs w) -> P (mockLogs (snd (addLog rt name message w))).

Lemma armed_preserves (cb : M Response) (v : World) :
  armed rt cb -> P (mockLogs v) -> P (mockLogs (snd (cb v))).
Proof.
  intros [name eff|methodName] Hv.
  - destruct (start_parser_callback_run name eff v) as [_ [v1 [E1 [_ E]]]].
    rewrite E. apply P_addLog. rewrite E1. exact Hv.
  - destruct (start_table_process_callback_run methodName v) as [_ E].
    rewrite E. exact Hv.
Qed.

Lemma handle_start_parser_inv (req : Request) (sv : Server) :
  server_inv rt P sv -> server_inv rt P (fst (handle (start_parser rt req) sv)).
Proof.
  intros [HP Hpend]. unfold handle.
  destruct (truthy (query_parser req)) eqn:Ht.
  - destruct (start_parser_present req (world sv) Ht)
      as [w1 [E1 [_ [Ef Es]]]].
    rewrite Ef. cbn [fst]. split; cbn [world pending].
    + rewrite Es. apply P_addLog. rewrite E1. exact HP.
    + apply Forall_app. split; [exact Hpend|].
      constructor; [constructor|constructor].
  - destruct (start_parser_missing req (world sv) Ht) as [Ef Es].
    rewrite Ef. cbn [fst]. split; cbn [world pending].
    + rewrite Es. exact HP.
    + exact Hpend.
Qed.

Lemma handle_start_table_process_inv (req : Request) (sv : Server) :
  server_inv rt P sv -> server_inv rt P (fst (handle (start_table_process rt req) sv)).
Proof.
  intros [HP Hpend]. unfold handle.
  destruct (truthy (query_method req)) eqn:Ht.
  - destruct (start_table_process_present req (world sv) Ht) as [Ef Es].
    rewrite Ef. cbn [fst]. split; cbn [world pending].
    + rewrite Es. exact HP.
    + apply Forall_app. split; [exact Hpend|].
      constructor; [constructor|constructor].
  - destruct (start_table_process_missing req (world sv) Ht) as [Ef Es].
    rewrite Ef. cbn [fst]. split; cbn [world pending].
    + rewrite Es. exact HP.
    + exact Hpend.
Qed.

Lemma handle_get_logs_inv (req : Request) (sv : Server) :
  server_inv rt P sv -> server_inv rt P (fst (handle (get_logs rt req) sv)).
Proof.
  intros [HP Hpend]. unfold handle.
  destruct (get_logs_run req (world sv)) as [Ef Es].
  rewrite Ef.
  destruct (truthy _); cbn [fst]; (split; cbn [world pending];
    [rewrite Es; exact HP|exact Hpend]).
Qed.

Lemma fire_inv (n : nat) (sv : Server) :
  server_inv rt P sv -> server_inv rt P (fst (fire n sv)).
Proof.
  intros [HP Hpend]. unfold fire.
  destruct (nth_error (pending sv) n) as [[d cb]|] eqn:Hn; cbn [fst].
  - split; cbn [world pending].
    + apply armed_preserves; [|exact HP].
      apply nth_error_In in Hn.
      rewrite Forall_forall in Hpend. exact (Hpend _ Hn).
    + rewrite Forall_forall in *. intros t Ht. apply Hpend.
      apply in_app_or in Ht.
      destruct Ht as [Ht|Ht].
      * rewrite <- (firstn_skipn n (pending sv)).
        apply in_or_app. left. exact Ht.
      * rewrite <- (firstn_skipn (S n) (pending sv)).
        apply in_or_app. right. exact Ht.
  - split; assumption.
Qed.

Lemma step_inv (ev : Event) (sv : Server) :
  server_inv rt P sv -> server_inv rt P (fst (step rt ev sv)).
Proof.
  intros Hinv. destruct ev as [|req|req|req|req|n]; cbn [step].
  - destruct Hinv as [HP Hpend]. split; cbn [fst world pending].
    + rewrite on_listening_mockLogs. exact HP.
    + exact Hpend.
  - apply handle_start_parser_inv. exact Hinv.
  - apply handle_start_table_process_inv. exact Hinv.
  - apply handle_get_logs_inv. exact Hinv.
  - destruct Hinv as [HP Hpend]. unfold handle.
    destruct (fallback_run req (world sv)) as [Ef Es].
    rewrite Ef. cbn [fst]. split; cbn [world pending].
    + rewrite Es. exact HP.
    + exact Hpend.
  - apply fire_inv. exact Hinv.
Qed.

Lemma run_inv (evs : list Event) (sv : Server) :
  server_inv rt P sv -> server_inv rt P (run rt evs sv).
Proof.
  revert sv. induction evs as [|ev evs IH]; intros sv Hinv; cbn [run].
  - exact Hinv.
  - apply IH. apply step_inv. exact Hinv.
Qed.

Lemma run_from_boot (evs : list Event) :
  P initial_mockLogs -> P (mockLogs (world (run rt evs boot))).
Proof.
  intros H0. apply (run_inv evs boot). split; [exact H0|constructor].
Qed.

End Invariant.

Lemma set_array_compose (k : string) (f g : list string -> list string)
  (s : LogStore) :
  set_array k g (set_array k f s) = set_array k (fun xs => g (f xs)) s.
Proof.
  unfold set_array. rewrite map_map. apply map_ext.
  intros [k' v]. cbn [fst snd].
  destruct (String.eqb k' k) eqn:E; cbn [fst snd]; rewrite ?E; reflexivity.
Qed.

Lemma set_array_id (k : string) (s : LogStore) :
  set_array k (fun xs => xs) s = s.
Proof.
  unfold set_array. rewrite <- (map_id s) at 2. apply map_ext.
  intros [k' v]. cbn [fst snd]. destruct (String.eqb k' k); reflexivity.
Qed.

(** ** The specified properties *)

(** C1. Capacity 20 with FIFO eviction.  The table starts within capacity;
    every sequence of [addLog] calls, and every run of the server, keeps
    every array at 20 lines or fewer; and one [addLog] whose name matches a
    key puts the new line at the back of that key's array, dropping the line
    at the front exactly when the array already held 20 lines. *)
Theorem C1_capacity_fifo :
  within_capacity initial_mockLogs /\
  (forall calls w,
      within_capacity (mockLogs w) ->
      within_capacity (mockLogs (snd (addLogs rt calls w)))) /\
  (forall evs, within_capacity (mockLogs (world (run rt evs boot)))) /\
  (forall name message w,
      truthy (find_key rt (mockLogs w) name) = true ->
      let k := ToString (find_key rt (mockLogs w) name) in
      let old := array_of (mockLogs w) k in
      let new := array_of (mockLogs (snd (addLog rt name message w))) k in
      ((List.length old < 20)%nat ->
       new = (old ++ [log_line rt w message])%list) /\
      ((20 <= List.length old)%nat ->
       new = (tl old ++ [log_line rt w message])%list)).
Proof.
  split; [exact initial_within_capacity|].
  split; [intros calls w; apply addLogs_within_capacity|].
  split.
  - intros evs. apply (run_from_boot within_capacity).
    + intros name message w. apply addLog_within_capacity.
    + exact initial_within_capacity.
  - intros name message w Ht k old new. unfold new.
    rewrite (addLog_matched _ _ _ Ht). fold k. fold old. split; intros Hlen.
    + destruct (Nat.ltb_spec 20 (List.length old + 1)); [lia|reflexivity].
    + destruct (Nat.ltb_spec 20 (List.length old + 1)); [|lia].
      destruct old as [|x xs]; [simpl in Hlen; lia|reflexivity].
Qed.

(** C10. The key set is fixed.  The table starts with the five names, each
    with an empty array; every run of the server and every [addLog] leaves
    the keys as they are; an [addLog] whose name matches no key
    case-insensitively leaves the whole table as it is; and any [addLog]
    changes at most the array under the key it matched. *)
Theorem C10_keys_constant_and_frame :
  initial_mockLogs = map (fun k => (k, [])) known_keys /\
  (forall evs, Object_keys (mockLogs (world (run rt evs boot))) = known_keys) /\
  (forall name message w,
      Object_keys (mockLogs (snd (addLog rt name message w))) =
      Object_keys (mockLogs w)) /\
  (forall name message w,
      (forall k, In k (Object_keys (mockLogs w)) ->
                 toLowerCase rt k <> toLowerCase rt name) ->
      mockLogs (snd (addLog rt name message w)) = mockLogs w) /\
  (forall name message w,
      (exists f,
          mockLogs (snd (addLog rt name message w)) =
          set_array (ToString (find_key rt (mockLogs w) name)) f (mockLogs w)) /\
      (forall k',
          JStr k' <> find_key rt (mockLogs w) name ->
          array_of (mockLogs (snd (addLog rt name message w))) k' =
          array_of (mockLogs w) k')).
Proof.
  split; [reflexivity|].
  split.
  - intros evs.
    apply (run_from_boot (fun s => Object_keys s = known_keys)).
    + intros name message w H. rewrite addLog_keys. exact H.
    + reflexivity.
  - split; [intros; apply addLog_keys|].
    split.
    + intros name message w Hno. apply addLog_unmatched.
      rewrite (find_key_no_match _ _ Hno). reflexivity.
    + intros name message w. split.
      * rewrite addLog_mockLogs.
        destruct (truthy (find_key rt (mockLogs w) name)).
        -- cbv zeta. destruct (Nat.ltb _ _).
           ++ rewrite set_array_compose. eexists. reflexivity.
           ++ eexists. reflexivity.
        -- exists (fun xs => xs). rewrite set_array_id. reflexivity.
      * intros k' Hk'. apply addLog_other. exact Hk'.
Qed.

(** C4. A request to [/start_parser] whose [parser] parameter is missing
    (undefined, or empty: the handler tests [!parserName]), and a request to
    [/start_table_process] whose [method] parameter is missing, is answered at
    once with status 400 and the message naming the parameter; no timer is
    armed and the table is left as it was. *)
Theorem C4_missing_parameter (req : Request) (sv : Server) :
  (truthy (query_parser req) = false ->
   snd (step rt (GET_start_parser req) sv) =
     Some {| statusCode := 400;
             body := [ ("status", JNumber 400);
                       ("message", JString ("Query parameter " ++ DQ ++ "parser"
                                            ++ DQ ++ " is required")) ] |} /\
   pending (fst (step rt (GET_start_parser req) sv)) = pending sv /\
   mockLogs (world (fst (step rt (GET_start_parser req) sv))) =
     mockLogs (world sv)) /\
  (truthy (query_method req) = false ->
   snd (step rt (GET_start_table_process req) sv) =
     Some {| statusCode := 400;
             body := [ ("status", JNumber 400);
                       ("message", JString ("Query parameter " ++ DQ ++ "method"
                                            ++ DQ ++ " is required")) ] |} /\
   pending (fst (step rt (GET_start_table_process req) sv)) = pending sv /\
   mockLogs (world (fst (step rt (GET_start_table_process req) sv))) =
     mockLogs (world sv)).
Proof.
  split; intros Hf; cbn [step]; unfold handle.
  - destruct (start_parser_missing req (world sv) Hf) as [Ef Es].
    rewrite Ef. cbn [fst snd world pending]. rewrite Es.
    repeat split; reflexivity.
  - destruct (start_table_process_missing req (world sv) Hf) as [Ef Es].
    rewrite Ef. cbn [fst snd world pending]. rewrite Es.
    repeat split; reflexivity.
Qed.

(** C7. A request for the logs of a name that matches no key of the table
    case-insensitively is answered with status 404 and the message
    "No logs found for unknown parser: <name>"; the table is left as it was. *)
Theorem C7_get_logs_unknown (req : Request) (w : World) :
  (forall k, In k (Object_keys (mockLogs w)) ->
             toLowerCase rt k <> toLowerCase rt (params0 req)) ->
  fst (get_logs rt req w) =
    Replied {| statusCode := 404;
               body := [ ("status", JNumber 404);
                         ("message",
                          JString ("No logs found for unknown parser: "
                                   ++ params0 req)) ] |} /\
  mockLogs (snd (get_logs rt req w)) = mockLogs w.
Proof.
  intros Hno. destruct (get_logs_run req w) as [Ef Es].
  rewrite Ef, (find_key_no_match _ _ Hno). split; [reflexivity|exact Es].
Qed.

(** C3. For a request to [/start_parser] with a job name present, the timer
    callback answers 500, with the mock-error body, exactly when the resolved
    name is the string CurrencyInfo and the draw is below 0.2; in every other
    case it answers 200 with the success body.  Both bodies carry the name as
    the request gave it. *)
Theorem C3_failure_only_for_CurrencyInfo (req : Request) (w : World) :
  truthy (query_parser req) = true ->
  let name := ToString (query_parser req) in
  let resolved := effective_name rt (mockLogs w) name in
  exists delay callback,
    fst (start_parser rt req w) = Scheduled delay callback /\
    forall v,
      fst (callback v) =
      if String.eqb resolved "CurrencyInfo"
         && num_lt (random rt (rng v)) num_0_2
      then {| statusCode := 500;
              body := [ ("status", JNumber 500);
                        ("message", JString ("Mock error during " ++ name
                                             ++ " parsing"));
                        ("parser", JString name) ] |}
      else {| statusCode := 200;
              body := [ ("status", JNumber 200);
                        ("message",
                         JString ("Parser " ++ name
                                  ++ " started and finished successfully (mock)."));
                        ("parser", JString name) ] |}.
Proof.
  intros Ht name resolved.
  destruct (start_parser_present req w Ht) as [w1 [_ [_ [Ef _]]]].
  eexists. eexists. split; [exact Ef|].
  intros v. fold name. fold resolved.
  destruct (start_parser_callback_run name resolved v) as [Er _].
  exact Er.
Qed.

(** C8. A request to [/start_table_process] with a method name present arms a
    timer whose callback always answers 200 with the success body for that
    method, whatever [args] is; an [args] other than the expected one for
    set_shop_price only adds a warning to the console; the table is changed
    neither by the handler nor by the callback. *)
Theorem C8_table_process_always_succeeds (req : Request) (w : World) :
  truthy (query_method req) = true ->
  let methodName := ToString (query_method req) in
  exists delay callback,
    fst (start_table_process rt req w) = Scheduled delay callback /\
    mockLogs (snd (start_table_process rt req w)) = mockLogs w /\
    (exists received simulating : string,
        console (snd (start_table_process rt req w)) =
        (console w ++ [(LOG, received)]
         ++ (if String.eqb methodName "set_shop_price"
                && args_mismatch (query_args req)
             then [(WARN,
                    ("Warning: Expected args='[" ++ DQ ++ "main" ++ DQ
                     ++ "]' for set_shop_price, but received: "
                     ++ ToString (query_args req))%string)]
             else [])
         ++ [(LOG, simulating)])%list) /\
    forall v,
      fst (callback v) =
        {| statusCode := 200;
           body := [ ("status", JNumber 200);
                     ("message",
                      JString ("Table process " ++ methodName
                               ++ " finished successfully (mock)."));
                     ("method", JString methodName) ] |} /\
      mockLogs (snd (callback v)) = mockLogs v.
Proof.
  intros Ht methodName.
  destruct (start_table_process_present req w Ht) as [Ef Es].
  eexists. eexists. split; [exact Ef|]. split; [exact Es|]. split.
  - unfold start_table_process. js_run. rewrite Ht. js_run. fold methodName.
    destruct (String.eqb methodName "set_shop_price"
              && args_mismatch (query_args req)); js_run;
      eexists; eexists; rewrite <- ?app_assoc; reflexivity.
  - intros v. apply start_table_process_callback_run.
Qed.

Lemma addLog_effect (name message : string) (u : World) :
  truthy (find_key rt (mockLogs u) name) = true ->
  let k := ToString (find_key rt (mockLogs u) name) in
  array_of (mockLogs (snd (addLog rt name message u))) k =
    pushed (array_of (mockLogs u) k) (log_line rt u message) /\
  (forall k', k' <> k ->
     array_of (mockLogs (snd (addLog rt name message u))) k' =
     array_of (mockLogs u) k').
Proof.
  intros Ht k. split.
  - exact (addLog_matched _ _ _ Ht).
  - intros k' Hne. apply addLog_other.
    destruct (truthy_JStr _ Ht) as [Hk _]. rewrite Hk.
    intros [= E]. exact (Hne E).
Qed.

(** C2, as the code has it.  A request to [/start_parser] with a job name
    present always arms a timer.  When the name matches a key
    case-insensitively, the handler pushes exactly one "Parser start
    requested." line onto that key's array before it returns, and the
    callback pushes exactly one "finished successfully" or "FAILED" line onto
    it; no other array changes.  When the name matches no key, neither the
    handler nor the callback changes the table. *)
Theorem C2_entries_for_matched_names (req : Request) (w : World) :
  truthy (query_parser req) = true ->
  let name := ToString (query_parser req) in
  let key := find_key rt (mockLogs w) name in
  let k := ToString key in
  exists delay callback,
    fst (start_parser rt req w) = Scheduled delay callback /\
    (truthy key = true ->
     (array_of (mockLogs (snd (start_parser rt req w))) k =
        pushed (array_of (mockLogs w) k)
          ("[" ++ now_iso rt (S (clock w)) ++ "] Parser start requested.") /\
      forall k', k' <> k ->
        array_of (mockLogs (snd (start_parser rt req w))) k' =
        array_of (mockLogs w) k') /\
     forall v,
       Object_keys (mockLogs v) = Object_keys (mockLogs w) ->
       exists outcome,
         (outcome = "Parser execution finished successfully." \/
          outcome = "Parser execution FAILED.") /\
         array_of (mockLogs (snd (callback v))) k =
           pushed (array_of (mockLogs v) k)
             ("[" ++ now_iso rt (clock v) ++ "] " ++ outcome) /\
         forall k', k' <> k ->
           array_of (mockLogs (snd (callback v))) k' =
           array_of (mockLogs v) k') /\
    (truthy key = false ->
     mockLogs (snd (start_parser rt req w)) = mockLogs w /\
     forall v,
       Object_keys (mockLogs v) = Object_keys (mockLogs w) ->
       mockLogs (snd (callback v)) = mockLogs v).
Proof.
  intros Ht name key k.
  destruct (start_parser_present req w Ht) as [w1 [E1 [C1 [Ef Es]]]].
  fold name in Ef, Es.
  destruct (find_key_effective (mockLogs w) name) as [Htr Heq].
  fold key in Htr, Heq.
  set (eff := effective_name rt (mockLogs w) name) in *.
  eexists. eexists. split; [exact Ef|]. split.
  - intros Hk. specialize (Heq Hk). split.
    + assert (truthy (find_key rt (mockLogs w1) eff) = true) as Ht1
          by (rewrite E1, Htr; exact Hk).
      destruct (addLog_effect eff "Parser start requested." w1 Ht1)
        as [Hin Hout].
      rewrite E1, Heq in Hin, Hout. fold k in Hin, Hout.
      unfold log_line in Hin. rewrite C1 in Hin.
      rewrite Es. split; [exact Hin|exact Hout].
    + intros v Hv.
      destruct (start_parser_callback_run name eff v) as [_ [v1 [Ev [Cv Ecb]]]].
      set (fail := String.eqb eff "CurrencyInfo"
                   && num_lt (random rt (rng v)) num_0_2) in *.
      set (outcome := if fail then "Parser execution FAILED."
                      else "Parser execution finished successfully.") in *.
      assert (find_key rt (mockLogs v1) eff = key) as Hfk.
      { rewrite Ev, (find_key_keys _ _ _ Hv). exact Heq. }
      assert (truthy (find_key rt (mockLogs v1) eff) = true) as Ht1
          by (rewrite Hfk; exact Hk).
      destruct (addLog_effect eff outcome v1 Ht1) as [Hin Hout].
      rewrite Hfk in Hin, Hout. fold k in Hin, Hout.
      unfold log_line in Hin. rewrite Ev, Cv in Hin. rewrite Ev in Hout.
      exists outcome. split; [unfold outcome; destruct fail; auto|].
      rewrite Ecb. split; [exact Hin|exact Hout].
  - intros Hk. split.
    + rewrite Es. rewrite addLog_unmatched; [exact E1|].
      rewrite E1, Htr. exact Hk.
    + intros v Hv.
      destruct (start_parser_callback_run name eff v) as [_ [v1 [Ev [_ Ecb]]]].
      rewrite Ecb. rewrite addLog_unmatched; [exact Ev|].
      rewrite Ev, (find_key_keys _ _ _ Hv), Htr. exact Hk.
Qed.

(** C5, as the code has it.  When the requested name matches a key, the
    answer has status 200.  For an empty array its message is the placeholder
    "[<timestamp>] No logs recorded yet for <key>." with the key in its
    canonical casing; for a non-empty array it is the stored lines joined by
    newlines, in stored order, followed by the synthetic block when, and only
    when, the key is Sale. *)
Theorem C5_logs_of_known_name (req : Request) (w : World) :
  truthy (find_key rt (mockLogs w) (params0 req)) = true ->
  let k := ToString (find_key rt (mockLogs w) (params0 req)) in
  let arr := array_of (mockLogs w) k in
  (arr = [] ->
   fst (get_logs rt req w) =
     Replied {| statusCode := 200;
                body := [ ("status", JNumber 200);
                          ("message",
                           JString ("[" ++ now_iso rt (S (clock w))
                                    ++ "] No logs recorded yet for " ++ k
                                    ++ ".")) ] |}) /\
  (arr <> [] -> k <> "Sale" ->
   fst (get_logs rt req w) =
     Replied {| statusCode := 200;
                body := [ ("status", JNumber 200);
                          ("message", JString (join LF arr)) ] |}) /\
  (arr <> [] -> k = "Sale" ->
   fst (get_logs rt req w) =
     Replied {| statusCode := 200;
                body := [ ("status", JNumber 200);
                          ("message",
                           JString (join LF arr
                                    ++ long_log_block rt (rng w))) ] |}).
Proof.
  intros Ht k arr. destruct (get_logs_run req w) as [Ef _].
  rewrite Ht in Ef. fold k in Ef. fold arr in Ef.
  split; [|split].
  - intros Harr. rewrite Ef, Harr. cbn [List.length Nat.ltb Nat.leb].
    rewrite andb_false_r, string_app_empty_r. reflexivity.
  - intros Harr Hk. rewrite Ef.
    destruct arr as [|x xs]; [contradiction|].
    cbn [List.length Nat.ltb Nat.leb].
    destruct (String.eqb_spec k "Sale") as [E|_]; [contradiction|].
    cbn [andb]. rewrite string_app_empty_r. reflexivity.
  - intros Harr Hk. rewrite Ef.
    destruct arr as [|x xs]; [contradiction|].
    cbn [List.length Nat.ltb Nat.leb].
    rewrite Hk. rewrite String.eqb_refl. reflexivity.
Qed.

Lemma long_log_block_lines (d : nat) :
  long_log_block rt d =
  LF ++ "----- START LONG LOG -----" ++ LF
  ++ String.concat EmptyString
       (map (fun i =>
               "This is a very long log line number " ++ dec i
               ++ " to test the file sending feature. Count: "
               ++ substring_from2 (toString36 rt (random rt (d + (i - 1))))
               ++ "." ++ LF)
            (seq 1 500))
  ++ "----- END LONG LOG -----".
Proof.
  unfold long_log_block, long_log_start, long_log_end.
  rewrite !string_app_assoc.
  rewrite <- seq_shift, map_map.
  rewrite (map_ext
             (fun j => long_log_line rt j (random rt (d + j)))
             (fun j =>
                "This is a very long log line number " ++ dec (S j)
                ++ " to test the file sending feature. Count: "
                ++ substring_from2 (toString36 rt (random rt (d + (S j - 1))))
                ++ "." ++ LF)).
  - reflexivity.
  - intros j. unfold long_log_line.
    rewrite Nat.add_1_r, Nat.sub_succ, Nat.sub_0_r. reflexivity.
Qed.

(** C6. The synthetic block is added to the message exactly when the matched
    key is Sale and its array is not empty.  The block comes after the stored
    lines; it is the START marker, then 500 lines numbered 1 to 500, each with
    the token of its own draw, then the END marker. *)
Theorem C6_long_log_only_for_Sale (req : Request) (w : World) :
  let key := find_key rt (mockLogs w) (params0 req) in
  let k := ToString key in
  let arr := array_of (mockLogs w) k in
  let base :=
    if Nat.ltb 0 (List.length arr) then join LF arr
    else "[" ++ now_iso rt (S (clock w)) ++ "] No logs recorded yet for "
         ++ k ++ "." in
  let line (i : nat) :=
    "This is a very long log line number " ++ dec i
    ++ " to test the file sending feature. Count: "
    ++ substring_from2 (toString36 rt (random rt (rng w + (i - 1))))
    ++ "." ++ LF in
  let block :=
    LF ++ "----- START LONG LOG -----" ++ LF
    ++ String.concat EmptyString (map line (seq 1 500))
    ++ "----- END LONG LOG -----" in
  List.length (map line (seq 1 500)) = 500%nat /\
  fst (get_logs rt req w) =
    if truthy key then
      Replied {| statusCode := 200;
                 body := [ ("status", JNumber 200);
                           ("message",
                            JString (base
                                     ++ (if String.eqb k "Sale"
                                            && Nat.ltb 0 (List.length arr)
                                         then block else EmptyString))) ] |}
    else
      Replied {| statusCode := 404;
                 body := [ ("status", JNumber 404);
                           ("message",
                            JString ("No logs found for unknown parser: "
                                     ++ params0 req)) ] |}.
Proof.
  intros key k arr base line block. split.
  - rewrite length_map, length_seq. reflexivity.
  - destruct (get_logs_run req w) as [Ef _]. rewrite Ef.
    fold key. fold k. fold arr.
    destruct (truthy key); [|reflexivity].
    destruct (String.eqb k "Sale" && Nat.ltb 0 (List.length arr));
      [|reflexivity].
    rewrite long_log_block_lines. reflexivity.
Qed.

End Properties.

(** ** Binary64 rounding *)

Section Rounding.

Local Open Scope Z_scope.

Lemma iter_pos_iter {A : Type} (f : A -> A) (p : positive) (x : A) :
  iter_pos f p x = Pos.iter f x p.
Proof.
  revert x. induction p as [p IH|p IH|]; intros x; cbn [iter_pos Pos.iter].
  - rewrite !IH, <- !Pos.iter_swap. reflexivity.
  - rewrite !IH. reflexivity.
  - reflexivity.
Qed.

Lemma digits2_bounds (p : positive) :
  2 ^ (Zpos (digits2_pos p) - 1) <= Zpos p < 2 ^ Zpos (digits2_pos p).
Proof.
  induction p as [p IH|p IH|]; cbn [digits2_pos].
  - rewrite Pos2Z.inj_succ.
    replace (Z.succ (Zpos (digits2_pos p)) - 1) with (Zpos (digits2_pos p) - 1 + 1) by lia.
    rewrite Z.pow_succ_r by lia. rewrite Z.pow_add_r by lia. lia.
  - rewrite Pos2Z.inj_succ.
    replace (Z.succ (Zpos (digits2_pos p)) - 1) with (Zpos (digits2_pos p) - 1 + 1) by lia.
    rewrite Z.pow_succ_r by lia. rewrite Z.pow_add_r by lia. lia.
  - simpl. lia.
Qed.

Lemma shr_1_inv (m n : Z) (mrs : shr_record) :
  0 <= n -> shr_inv m n mrs -> shr_inv m (n + 1) (shr_1 mrs).
Proof.
  intros Hn [Hm [rem [Hrem [Hdec Hloc]]]].
  assert (0 < 2 ^ n) as Hpow by (apply Z.pow_pos_nonneg; lia).
  unfold shr_inv. rewrite Z.pow_add_r, Z.pow_1_r by lia.
  destruct mrs as [m0 r s]. cbn [shr_m] in *.
  unfold loc_of_rem in Hloc.
  destruct (Z.eqb_spec rem 0) as [Hz|Hnz].
  - (* nothing was lost so far *)
    destruct r, s; try discriminate Hloc.
    destruct m0 as [|[p|p|]|p]; try lia; cbn [shr_1 shr_m orb].
    + split; [lia|]. exists 0. repeat split; try lia.
    + split; [lia|]. exists (2 ^ n). repeat split; try lia.
      unfold loc_of_rem. destruct (Z.eqb_spec (2 ^ n) 0); [lia|].
      cbn [loc_of_shr_record]. f_equal. symmetry. apply Z.compare_eq_iff. lia.
    + split; [lia|]. exists 0. repeat split; try lia.
    + split; [lia|]. exists (2 ^ n). repeat split; try lia.
      unfold loc_of_rem. destruct (Z.eqb_spec (2 ^ n) 0); [lia|].
      cbn [loc_of_shr_record]. f_equal. symmetry. apply Z.compare_eq_iff. lia.
  - assert (orb r s = true) as Hrs by (destruct r, s; try reflexivity; discriminate Hloc).
    destruct m0 as [|[p|p|]|p]; try lia; cbn [shr_1 shr_m]; rewrite Hrs.
    + split; [lia|]. exists rem. repeat split; try lia.
      unfold loc_of_rem. destruct (Z.eqb_spec rem 0); [lia|].
      cbn [loc_of_shr_record]. f_equal. symmetry. apply Z.compare_lt_iff. lia.
    + split; [lia|]. exists (2 ^ n + rem). repeat split; try lia.
      unfold loc_of_rem. destruct (Z.eqb_spec (2 ^ n + rem) 0); [lia|].
      cbn [loc_of_shr_record]. f_equal. symmetry. apply Z.compare_gt_iff. lia.
    + split; [lia|]. exists rem. repeat split; try lia.
      unfold loc_of_rem. destruct (Z.eqb_spec rem 0); [lia|].
      cbn [loc_of_shr_record]. f_equal. symmetry. apply Z.compare_lt_iff. lia.
    + split; [lia|]. exists (2 ^ n + rem). repeat split; try lia.
      unfold loc_of_rem. destruct (Z.eqb_spec (2 ^ n + rem) 0); [lia|].
      cbn [loc_of_shr_record]. f_equal. symmetry. apply Z.compare_gt_iff. lia.
Qed.

Lemma shr_iter_inv (m : Z) (p : positive) :
  0 <= m ->
  shr_inv m (Zpos p) (iter_pos shr_1 p (Build_shr_record m false false)).
Proof.
  intros Hm. rewrite iter_pos_iter.
  assert (shr_inv m 0 (Build_shr_record m false false)) as H0.
  { split; [exact Hm|]. exists 0. cbn [shr_m]. rewrite Z.pow_0_r.
    repeat split; try lia. }
  induction p as [|p IH] using Pos.peano_ind.
  - cbn [Pos.iter]. apply (shr_1_inv m 0); [lia|exact H0].
  - rewrite Pos.iter_succ, Pos2Z.inj_succ. unfold Z.succ.
    apply shr_1_inv; [lia|exact IH].
Qed.

Lemma shr_fexp_exact (m e : Z) :
  0 <= m ->
  let e2 := fexp prec emax (Zdigits2 m + e) in
  (e2 <= e ->
   shr_fexp prec emax m e loc_Exact = (Build_shr_record m false false, e)) /\
  (e < e2 ->
   exists mrs, shr_fexp prec emax m e loc_Exact = (mrs, e2) /\
               shr_inv m (e2 - e) mrs).
Proof.
  intros Hm e2. unfold shr_fexp. fold e2. cbn [shr_record_of_loc].
  split; intros He.
  - unfold shr. destruct (e2 - e) eqn:E; try reflexivity. lia.
  - unfold shr. destruct (e2 - e) as [|p|p] eqn:E; try lia.
    eexists. split.
    + f_equal. lia.
    + apply shr_iter_inv. exact Hm.
Qed.

Lemma binary_round_aux_round_finish (mx ex : Z) :
  binary_round_aux prec emax false mx ex loc_Exact =
  let '(mrs, e1) := shr_fexp prec emax mx ex loc_Exact in
  round_finish (round_nearest_even (shr_m mrs) (loc_of_shr_record mrs)) e1.
Proof. reflexivity. Qed.

Lemma round_nearest_even_rem (q rem N : Z) :
  0 <= rem < N ->
  let m1 := round_nearest_even q (loc_of_rem rem N) in
  q <= m1 <= q + 1 /\ (2 * rem < N -> m1 = q).
Proof.
  intros Hrem. unfold loc_of_rem.
  destruct (Z.eqb_spec rem 0) as [->|Hnz]; cbn [round_nearest_even].
  - split; [lia|reflexivity].
  - destruct (Z.compare_spec (2 * rem) N) as [E|E|E].
    + destruct (Z.even q); split; lia.
    + split; [lia|reflexivity].
    + split; lia.
Qed.

Lemma first_step (mx ex : Z) :
  0 < mx ->
  exists m1 e1,
    binary_round_aux prec emax false mx ex loc_Exact = round_finish m1 e1 /\
    ((e1 = ex /\ m1 = mx /\ fexp prec emax (Zdigits2 mx + ex) <= ex) \/
     (ex < e1 /\ e1 = fexp prec emax (Zdigits2 mx + ex) /\
      exists q rem,
        0 <= q /\ 0 <= rem < 2 ^ (e1 - ex) /\ mx = q * 2 ^ (e1 - ex) + rem /\
        q <= m1 <= q + 1 /\ (2 * rem < 2 ^ (e1 - ex) -> m1 = q))).
Proof.
  intros Hmx. rewrite binary_round_aux_round_finish.
  destruct (shr_fexp_exact mx ex (Z.lt_le_incl _ _ Hmx)) as [Hno Hsh].
  destruct (Z.le_gt_cases (fexp prec emax (Zdigits2 mx + ex)) ex) as [He|He].
  - rewrite (Hno He). cbn [shr_m loc_of_shr_record round_nearest_even].
    exists mx, ex. split; [reflexivity|]. left. repeat split. exact He.
  - destruct (Hsh He) as [mrs [E [Hq [rem [Hrem [Hdec Hloc]]]]]].
    rewrite E. eexists. eexists. split; [reflexivity|]. right.
    split; [exact He|]. split; [reflexivity|].
    exists (shr_m mrs), rem. split; [exact Hq|]. split; [exact Hrem|].
    split; [exact Hdec|]. rewrite Hloc.
    apply round_nearest_even_rem. exact Hrem.
Qed.

Local Open Scope Q_scope.

Lemma two_pow_pos (e : Z) : 0 < 2 ^ e.
Proof. apply Qpower_0_lt. reflexivity. Qed.

Lemma two_pow_add (a b : Z) : 2 ^ (a + b) == 2 ^ a * 2 ^ b.
Proof. apply Qpower_plus. discriminate. Qed.

Lemma dyadic_scale (m e k : Z) : (0 <= k)%Z -> dyadic (m * 2 ^ k) e == dyadic m (e + k).
Proof.
  intros Hk. unfold dyadic.
  rewrite inject_Z_mult, (Zpower_Qpower 2 k Hk), two_pow_add.
  change (inject_Z 2) with 2. ring.
Qed.

Lemma dyadic_le (a b e : Z) : (a <= b)%Z <-> dyadic a e <= dyadic b e.
Proof.
  unfold dyadic. rewrite (Qmult_le_r _ _ _ (two_pow_pos e)), <- Zle_Qle. reflexivity.
Qed.

Lemma dyadic_lt (a b e : Z) : (a < b)%Z <-> dyadic a e < dyadic b e.
Proof.
  unfold dyadic. rewrite (Qmult_lt_r _ _ _ (two_pow_pos e)), <- Zlt_Qlt. reflexivity.
Qed.

Lemma dyadic_0 (e : Z) : dyadic 0 e == 0.
Proof. unfold dyadic. ring. Qed.

(** A value on a coarse grid, seen on a finer one. *)
Lemma dyadic_refine (m e e' : Z) : (e' <= e)%Z -> dyadic m e == dyadic (m * 2 ^ (e - e')) e'.
Proof.
  intros H. rewrite dyadic_scale by lia. replace (e' + (e - e'))%Z with e by lia.
  reflexivity.
Qed.

Lemma dyadic_pow_lt_inv (a b : Z) : dyadic 1 a < dyadic 1 b -> (a < b)%Z.
Proof.
  unfold dyadic. rewrite !Qmult_1_l. intros H.
  apply (Qpower_lt_compat_l_inv 2); [exact H|reflexivity].
Qed.

(** Truncating [m] at exponent [e] to the grid of exponent [e + n]. *)
Lemma dyadic_floor (m e n q rem : Z) :
  (0 <= n)%Z -> (0 <= rem < 2 ^ n)%Z -> (m = q * 2 ^ n + rem)%Z ->
  dyadic q (e + n) <= dyadic m e /\ dyadic m e < dyadic (q + 1) (e + n).
Proof.
  intros Hn Hrem ->. rewrite <- !dyadic_scale by exact Hn. split.
  - apply dyadic_le. lia.
  - apply dyadic_lt. lia.
Qed.

Lemma SF2Q_nonneg_double (q e : Z) : (0 <= q)%Z -> SF2Q (nonneg_double q e) == dyadic q e.
Proof.
  intros Hq. destruct q as [|p|p]; cbn [nonneg_double SF2Q cond_Zopp]; unfold dyadic.
  - ring.
  - reflexivity.
  - lia.
Qed.

Lemma fexp_mono (a b : Z) :
  (a <= b)%Z -> (fexp prec emax a <= fexp prec emax b)%Z.
Proof. unfold fexp, emin, prec, emax. lia. Qed.

Lemma fexp_le_max (B : Z) :
  (B <= emax)%Z -> (fexp prec emax B <= emax - prec)%Z.
Proof. unfold fexp, emin, prec, emax. lia. Qed.

Lemma round_finish_spec (m1 e1 B : Z) :
  (0 <= m1)%Z -> dyadic m1 e1 < dyadic 1 B ->
  (e1 <= emax - prec)%Z -> (B <= emax)%Z ->
  exists q e2,
    (0 <= q)%Z /\ round_finish m1 e1 = nonneg_double q e2 /\
    dyadic q e2 <= dyadic m1 e1 /\
    forall l el, (fexp prec emax B <= el)%Z -> dyadic l el <= dyadic m1 e1 ->
                 dyadic l el <= dyadic q e2.
Proof.
  intros Hm Hlt He1 HB.
  destruct (shr_fexp_exact m1 e1 Hm) as [Hno Hsh].
  set (e2 := fexp prec emax (Zdigits2 m1 + e1)) in *.
  assert (e1 < e2 -> e2 <= fexp prec emax B)%Z as He2.
  { intros Hsh'. destruct m1 as [|p|p]; [| |lia].
    - (* zero: the grid is that of [e1] *)
      unfold e2. cbn [Zdigits2]. rewrite Z.add_0_l.
      subst e2. cbn [Zdigits2] in Hsh'. rewrite Z.add_0_l in Hsh'.
      revert Hsh'. unfold fexp, emin, prec, emax. lia.
    - apply fexp_mono. cbn [Zdigits2].
      pose proof (digits2_bounds p) as [Hlo _].
      apply (proj1 (dyadic_le _ _ e1)) in Hlo.
      rewrite <- (Z.mul_1_l (2 ^ _)), dyadic_scale in Hlo
        by (pose proof (Pos2Z.is_pos (digits2_pos p)); lia).
      pose proof (Qle_lt_trans _ _ _ Hlo Hlt) as H.
      apply dyadic_pow_lt_inv in H. lia. }
  destruct (Z.le_gt_cases e2 e1) as [Hcase|Hcase].
  - exists m1, e1. split; [exact Hm|]. split.
    + unfold round_finish. rewrite (Hno Hcase). cbn [shr_m].
      destruct m1 as [|p|p]; [reflexivity| |lia].
      cbn [nonneg_double]. destruct (Z.leb_spec e1 (emax - prec)); [reflexivity|lia].
    + split; [apply Qle_refl|]. intros l el _ H. exact H.
  - destruct (Hsh Hcase) as [mrs [E [Hq [rem [Hrem [Hdec _]]]]]].
    specialize (He2 Hcase).
    exists (shr_m mrs), e2. split; [exact Hq|]. split.
    + unfold round_finish. rewrite E.
      destruct (shr_m mrs) as [|p|p]; [reflexivity| |lia].
      cbn [nonneg_double]. pose proof (fexp_le_max B HB).
      destruct (Z.leb_spec e2 (emax - prec)); [reflexivity|lia].
    + destruct (dyadic_floor m1 e1 (e2 - e1) (shr_m mrs) rem) as [Hfl Hfu];
        [lia|exact Hrem|exact Hdec|].
      replace (e1 + (e2 - e1))%Z with e2 in Hfl, Hfu by lia.
      split; [exact Hfl|].
      intros l el Hel Hl.
      rewrite (dyadic_refine l el e2) in * by lia.
      apply dyadic_le. apply Z.lt_succ_r. apply (dyadic_lt _ _ e2).
      exact (Qle_lt_trans _ _ _ Hl Hfu).
Qed.

Lemma digits_exp_le (m e B : Z) :
  (0 < m)%Z -> dyadic m e < dyadic 1 B -> (Zdigits2 m + e <= B)%Z.
Proof.
  intros Hm Hlt. destruct m as [|p|p]; try lia. cbn [Zdigits2].
  pose proof (digits2_bounds p) as [Hlo _].
  apply (proj1 (dyadic_le _ _ e)) in Hlo.
  rewrite <- (Z.mul_1_l (2 ^ _)), dyadic_scale in Hlo
    by (pose proof (Pos2Z.is_pos (digits2_pos p)); lia).
  pose proof (Qle_lt_trans _ _ _ Hlo Hlt) as H.
  apply dyadic_pow_lt_inv in H. lia.
Qed.

Lemma fexp_le_self (B : Z) : (emin prec emax <= B)%Z -> (fexp prec emax B <= B)%Z.
Proof. unfold fexp, emin, prec, emax. lia. Qed.

(** Rounding keeps a value between two bounds that lie on the grid. *)
Lemma round_sandwich (mx ex B l el h eh : Z) :
  (0 < mx)%Z -> dyadic mx ex < dyadic 1 B ->
  (emin prec emax <= B)%Z -> (B + 1 <= emax)%Z -> (ex <= emax - prec)%Z ->
  (fexp prec emax B <= eh)%Z -> (fexp prec emax (B + 1) <= el)%Z ->
  dyadic l el <= dyadic mx ex -> dyadic mx ex <= dyadic h eh ->
  exists q e,
    (0 <= q)%Z /\
    binary_round_aux prec emax false mx ex loc_Exact = nonneg_double q e /\
    dyadic l el <= dyadic q e /\ dyadic q e <= dyadic h eh.
Proof.
  intros Hmx HltB HBmin HB Hex Heh Hel Hl Hh.
  pose proof (fexp_mono B (B + 1) ltac:(lia)) as HfB.
  destruct (first_step mx ex Hmx) as [m1 [e1 [E Hcase]]].
  rewrite E. clear E.
  destruct Hcase as [[-> [-> _]]|[Hsh [He1 [q0 [rem [Hq0 [Hrem [Hdec [Hm1 Hdown]]]]]]]]].
  - destruct (round_finish_spec mx ex B) as [q [e2 [Hq [E [Hup Hlow]]]]];
      try lia; try assumption.
    exists q, e2. split; [exact Hq|]. split; [exact E|]. split.
    + apply Hlow; [lia|exact Hl].
    + exact (Qle_trans _ _ _ Hup Hh).
  - pose proof (digits_exp_le mx ex B Hmx HltB) as Hd.
    assert (e1 <= fexp prec emax B)%Z as He1B
        by (rewrite He1; apply fexp_mono; exact Hd).
    pose proof (fexp_le_self B HBmin) as HfBB.
    pose proof (fexp_le_max B ltac:(lia)) as HfBmax.
    set (n := (e1 - ex)%Z) in *.
    assert (0 < 2 ^ n)%Z as HN by (apply Z.pow_pos_nonneg; lia).
    destruct (dyadic_floor mx ex n q0 rem) as [Hfl Hfu]; [lia|exact Hrem|exact Hdec|].
    replace (ex + n)%Z with e1 in Hfl, Hfu by (unfold n; lia).
    (* an upper bound on the grid is kept by the first rounding *)
    assert (forall hh, dyadic mx ex <= dyadic hh e1 -> (m1 <= hh)%Z) as Hkeep.
    { intros hh Hhh.
      rewrite (dyadic_refine hh e1 ex) in Hhh by lia. fold n in Hhh.
      apply dyadic_le in Hhh.
      destruct (Z.eq_dec rem 0) as [Hz|Hnz].
      - rewrite Hdown by lia. nia.
      - nia. }
    assert (m1 <= h * 2 ^ (eh - e1))%Z as Hm1h.
    { apply Hkeep. rewrite <- dyadic_refine by lia. exact Hh. }
    assert (m1 <= 2 ^ (B - e1))%Z as Hm1B.
    { apply Hkeep. rewrite <- (Z.mul_1_l (2 ^ _)), <- dyadic_refine by lia.
      apply Qlt_le_weak. exact HltB. }
    assert (l * 2 ^ (el - e1) <= m1)%Z as Hm1l.
    { rewrite (dyadic_refine l el e1) in Hl by lia.
      pose proof (Qle_lt_trans _ _ _ Hl Hfu) as H. apply dyadic_lt in H. lia. }
    destruct (round_finish_spec m1 e1 (B + 1)) as [q [e2 [Hq [E [Hup Hlow]]]]];
      try lia.
    { apply Qle_lt_trans with (dyadic 1 B).
      - rewrite (dyadic_refine 1 B e1) by lia. apply dyadic_le. lia.
      - unfold dyadic. rewrite !Qmult_1_l.
        apply Qpower_lt_compat_l; [lia|reflexivity]. }
    exists q, e2. split; [exact Hq|]. split; [exact E|]. split.
    + apply Hlow; [exact Hel|].
      rewrite (dyadic_refine l el e1) by lia. apply dyadic_le. exact Hm1l.
    + apply Qle_trans with (dyadic m1 e1); [exact Hup|].
      rewrite (dyadic_refine h eh e1) by lia. apply dyadic_le. exact Hm1h.
Qed.

(** Round-to-nearest: a value below the midpoint above [hh] is not rounded
    past [hh]. *)
Lemma round_upper_nearest (mx ex hh B : Z) :
  (0 < mx)%Z ->
  let e1 := fexp prec emax (Zdigits2 mx + ex) in
  (ex < e1)%Z -> (e1 <= emax - prec)%Z -> (B <= emax)%Z ->
  dyadic hh e1 < dyadic 1 B ->
  (2 * mx < (2 * hh + 1) * 2 ^ (e1 - ex))%Z ->
  exists q e,
    (0 <= q)%Z /\
    binary_round_aux prec emax false mx ex loc_Exact = nonneg_double q e /\
    dyadic q e <= dyadic hh e1.
Proof.
  intros Hmx e1 Hsh He1max HB HhhB Hmid.
  destruct (first_step mx ex Hmx) as [m1 [e1' [E Hcase]]].
  rewrite E. clear E.
  destruct Hcase as [[_ [_ Hno]]|[_ [He1 [q0 [rem [Hq0 [Hrem [Hdec [Hm1 Hdown]]]]]]]]].
  - fold e1 in Hno. lia.
  - fold e1 in He1. subst e1'.
    set (n := (e1 - ex)%Z) in *.
    assert (0 < 2 ^ n)%Z as HN by (apply Z.pow_pos_nonneg; lia).
    assert (m1 <= hh)%Z as Hm1h.
    { destruct (Z.lt_ge_cases q0 hh) as [Hlt|Hge]; [lia|].
      rewrite Hdown by nia. nia. }
    destruct (round_finish_spec m1 e1 B) as [q [e2 [Hq [E [Hup _]]]]]; try lia.
    { apply Qle_lt_trans with (dyadic hh e1); [apply dyadic_le; exact Hm1h|exact HhhB]. }
    exists q, e2. split; [exact Hq|]. split; [exact E|].
    apply Qle_trans with (dyadic m1 e1); [exact Hup|]. apply dyadic_le. exact Hm1h.
Qed.

Lemma dyadic_add (a b e : Z) : dyadic a e + dyadic b e == dyadic (a + b) e.
Proof. unfold dyadic. rewrite inject_Z_plus. ring. Qed.

Lemma Pos_iter_xO (m d : positive) :
  Zpos (Pos.iter xO m d) = (Zpos m * 2 ^ Zpos d)%Z.
Proof.
  induction d as [|d IH] using Pos.peano_ind.
  - cbn [Pos.iter]. lia.
  - rewrite Pos.iter_succ, Pos2Z.inj_xO, IH, Pos2Z.inj_succ.
    rewrite Z.pow_succ_r by lia. lia.
Qed.

(** [shl_align] changes the representation, not the value. *)
Lemma shl_align_value (m : positive) (e e' : Z) :
  dyadic (Zpos (fst (shl_align m e e'))) (snd (shl_align m e e')) == dyadic (Zpos m) e /\
  (snd (shl_align m e e') <= e)%Z /\
  ((e' <= e)%Z -> snd (shl_align m e e') = e').
Proof.
  unfold shl_align. destruct (e' - e)%Z as [|d|d] eqn:E; cbn [fst snd].
  - split; [reflexivity|]. split; lia.
  - split; [reflexivity|]. split; lia.
  - rewrite Pos_iter_xO. split; [|split; lia].
    rewrite dyadic_scale by lia. replace (e' + Zpos d)%Z with e by lia. reflexivity.
Qed.

Lemma binary_round_value (s : positive) (ez : Z) :
  exists mz ez',
    binary_round prec emax false s ez =
      binary_round_aux prec emax false (Zpos mz) ez' loc_Exact /\
    dyadic (Zpos mz) ez' == dyadic (Zpos s) ez /\ (ez' <= ez)%Z.
Proof.
  unfold binary_round.
  destruct (shl_align_value s ez
              (fexp prec emax (Zpos (digits2_pos s) + ez))) as [Hv [Hle _]].
  destruct (shl_align s ez _) as [mz ez']. cbn [fst snd] in Hv, Hle.
  exists mz, ez'. split; [reflexivity|]. split; assumption.
Qed.

(** The sum of two positive doubles is the rounding of their exact sum. *)
Lemma SFadd_pos (m1 : positive) (e1 : Z) (m2 : positive) (e2 : Z) :
  exists mz ez,
    SFadd prec emax (S754_finite false m1 e1) (S754_finite false m2 e2) =
      binary_round_aux prec emax false (Zpos mz) ez loc_Exact /\
    dyadic (Zpos mz) ez == dyadic (Zpos m1) e1 + dyadic (Zpos m2) e2 /\
    (ez <= e2)%Z.
Proof.
  cbn [SFadd cond_Zopp].
  set (e0 := Z.min e1 e2).
  destruct (shl_align_value m1 e1 e0) as [Hv1 [_ Hs1]].
  destruct (shl_align_value m2 e2 e0) as [Hv2 [_ Hs2]].
  specialize (Hs1 ltac:(unfold e0; lia)). specialize (Hs2 ltac:(unfold e0; lia)).
  rewrite Hs1 in Hv1. rewrite Hs2 in Hv2.
  rewrite <- Pos2Z.inj_add. cbn [binary_normalize].
  destruct (binary_round_value
              (fst (shl_align m1 e1 e0) + fst (shl_align m2 e2 e0)) e0)
    as [mz [ez [E [Hv Hle]]]].
  exists mz, ez. split; [exact E|]. split.
  - rewrite Hv, Pos2Z.inj_add, <- dyadic_add, Hv1, Hv2. reflexivity.
  - unfold e0 in Hle. lia.
Qed.

(** Adding a positive constant to a non-negative double, between bounds on
    the grid. *)
Lemma add_sandwich (q1 e1 : Z) (mc : positive) (ec B l el h eh : Z) :
  (0 <= q1)%Z ->
  dyadic q1 e1 + dyadic (Zpos mc) ec < dyadic 1 B ->
  (emin prec emax <= B)%Z -> (B + 1 <= emax)%Z -> (ec <= emax - prec)%Z ->
  (fexp prec emax B <= eh)%Z -> (fexp prec emax (B + 1) <= el)%Z ->
  dyadic l el <= dyadic q1 e1 + dyadic (Zpos mc) ec ->
  dyadic q1 e1 + dyadic (Zpos mc) ec <= dyadic h eh ->
  exists q e,
    (0 <= q)%Z /\
    SFadd prec emax (nonneg_double q1 e1) (S754_finite false mc ec) = nonneg_double q e /\
    dyadic l el <= dyadic q e /\ dyadic q e <= dyadic h eh.
Proof.
  intros Hq1 HltB HBmin HB Hec Heh Hel Hl Hh.
  destruct q1 as [|p1|p1]; [| |lia].
  - exists (Zpos mc), ec. split; [lia|]. split; [reflexivity|].
    rewrite dyadic_0, Qplus_0_l in Hl, Hh. split; assumption.
  - cbn [nonneg_double].
    destruct (SFadd_pos p1 e1 mc ec) as [mz [ez [E [Hv Hle]]]].
    rewrite E. rewrite <- Hv in HltB, Hl, Hh.
    apply (round_sandwich (Zpos mz) ez B l el h eh); try assumption; lia.
Qed.

(** Multiplying a positive double by a positive constant, between bounds on
    the grid. *)
Lemma mul_sandwich (m : positive) (e : Z) (mc : positive) (ec B l el h eh : Z) :
  dyadic (Zpos m * Zpos mc) (e + ec) < dyadic 1 B ->
  (emin prec emax <= B)%Z -> (B + 1 <= emax)%Z -> (e + ec <= emax - prec)%Z ->
  (fexp prec emax B <= eh)%Z -> (fexp prec emax (B + 1) <= el)%Z ->
  dyadic l el <= dyadic (Zpos m * Zpos mc) (e + ec) ->
  dyadic (Zpos m * Zpos mc) (e + ec) <= dyadic h eh ->
  exists q e',
    (0 <= q)%Z /\
    SFmul prec emax (S754_finite false m e) (S754_finite false mc ec) = nonneg_double q e' /\
    dyadic l el <= dyadic q e' /\ dyadic q e' <= dyadic h eh.
Proof.
  intros HltB HBmin HB Hex Heh Hel Hl Hh.
  cbn [SFmul xorb]. rewrite Pos2Z.inj_mul.
  apply (round_sandwich _ _ B); try assumption; lia.
Qed.

Lemma dyadic_le_at (a ea b eb : Z) :
  (ea <= eb)%Z -> (a <= b * 2 ^ (eb - ea))%Z -> dyadic a ea <= dyadic b eb.
Proof. intros He H. rewrite (dyadic_refine b eb ea He). apply dyadic_le. exact H. Qed.

Lemma dyadic_lt_at (a ea b eb : Z) :
  (ea <= eb)%Z -> (a < b * 2 ^ (eb - ea))%Z -> dyadic a ea < dyadic b eb.
Proof. intros He H. rewrite (dyadic_refine b eb ea He). apply dyadic_lt. exact H. Qed.

Lemma dyadic_nonneg (a e : Z) : (0 <= a)%Z -> 0 <= dyadic a e.
Proof. intros H. rewrite <- (dyadic_0 e). apply dyadic_le. exact H. Qed.

(** What being a double in [0, 1) means for the mantissa and the exponent. *)
Lemma unit_draw_cases (r : number) :
  unit_draw r ->
  (exists s, r = S754_zero s) \/
  (exists m e,
      r = S754_finite false m e /\ (e < 0)%Z /\
      (Zpos m < 2 ^ (- e))%Z /\
      (Zpos m * 2 ^ 53 <= (2 ^ 53 - 1) * 2 ^ (- e))%Z).
Proof.
  intros [Hvalid [Hfin [H0 H1]]].
  destruct r as [s|s| |s m e]; try discriminate Hfin.
  - left. exists s. reflexivity.
  - right. destruct s.
    + exfalso. cbn [SF2Q cond_Zopp] in H0.
      apply (Qle_not_lt _ _ H0).
      change (inject_Z (- Zpos m) * 2 ^ e) with (dyadic (- Zpos m) e).
      rewrite <- (dyadic_0 e). apply dyadic_lt. lia.
    + exists m, e. split; [reflexivity|].
      cbn [SF2Q cond_Zopp] in H1. change (inject_Z (Zpos m) * 2 ^ e) with (dyadic (Zpos m) e) in H1.
      assert (e < 0)%Z as He.
      { apply dyadic_pow_lt_inv. apply Qle_lt_trans with (dyadic (Zpos m) e).
        - apply dyadic_le. lia.
        - apply Qlt_le_trans with 1; [exact H1|]. unfold dyadic. cbn. apply Qle_refl. }
      split; [exact He|].
      assert (Zpos m < 2 ^ (- e))%Z as HT.
      { apply (dyadic_lt _ _ e). rewrite <- (Z.mul_1_l (2 ^ (- e))).
        replace (- e)%Z with (0 - e)%Z by lia. rewrite <- dyadic_refine by lia.
        apply Qlt_le_trans with 1; [exact H1|]. unfold dyadic. cbn. apply Qle_refl. }
      split; [exact HT|].
      assert (Zpos m < 2 ^ 53)%Z as H53.
      { cbn [valid_binary] in Hvalid. unfold bounded in Hvalid.
        apply andb_prop in Hvalid. destruct Hvalid as [Hc _].
        unfold canonical_mantissa in Hc. apply Z.eqb_eq in Hc.
        pose proof (digits2_bounds m) as [_ Hhi].
        apply Z.lt_le_trans with (1 := Hhi).
        apply Z.pow_le_mono_r; [lia|].
        revert Hc. unfold fexp, emin, prec, emax. lia. }
      assert (0 < 2 ^ (- e))%Z as HTpos by (apply Z.pow_pos_nonneg; lia).
      revert HT H53 HTpos. generalize (2 ^ (- e))%Z. intros T.
      change (2 ^ 53)%Z with 9007199254740992%Z. lia.
Qed.

Lemma Num_3000 : Num 3000 = S754_finite false 6597069766656000 (-41).
Proof. reflexivity. Qed.
Lemma Num_1000 : Num 1000 = S754_finite false 8796093022208000 (-43).
Proof. reflexivity. Qed.
Lemma Num_500 : Num 500 = S754_finite false 8796093022208000 (-44).
Proof. reflexivity. Qed.

(** [r * 3000] is at most the double just below 3000. *)
Lemma parser_product (m : positive) (e : Z) :
  (e < 0)%Z -> (Zpos m < 2 ^ (- e))%Z ->
  (Zpos m * 2 ^ 53 <= (2 ^ 53 - 1) * 2 ^ (- e))%Z ->
  exists q e',
    (0 <= q)%Z /\
    num_mul (S754_finite false m e) (Num 3000) = nonneg_double q e' /\
    dyadic q e' <= dyadic 6597069766655999 (-41).
Proof.
  intros He HT Hmax. rewrite Num_3000. unfold num_mul.
  assert (0 < 2 ^ (- e))%Z as HTpos by (apply Z.pow_pos_nonneg; lia).
  destruct (Z.lt_ge_cases (Zpos m * 6597069766656000) (2 ^ 52 * 2 ^ (- e)))
    as [Hsmall|Hbig].
  - (* the product is below 2^11 *)
    destruct (mul_sandwich m e 6597069766656000 (-41) 11 0 0 1 11)
      as [q [e' [Hq [E [_ Hup]]]]].
    + apply dyadic_lt_at; [lia|].
      replace (11 - (e + -41))%Z with (52 + - e)%Z by lia.
      rewrite Z.pow_add_r by lia. lia.
    + unfold emin, prec, emax. lia.
    + unfold emax. lia.
    + unfold emax, prec. lia.
    + unfold fexp, emin, prec, emax. lia.
    + unfold fexp, emin, prec, emax. lia.
    + rewrite dyadic_0. apply dyadic_nonneg. lia.
    + apply dyadic_le_at; [lia|].
      replace (11 - (e + -41))%Z with (52 + - e)%Z by lia.
      rewrite Z.pow_add_r by lia. lia.
    + exists q, e'. split; [exact Hq|]. split; [exact E|].
      apply Qle_trans with (1 := Hup). vm_compute. discriminate.
  - (* the product is in [2^11, 3000): the grid is 2^-41 *)
    cbn [SFmul xorb]. rewrite Pos2Z.inj_mul.
    assert (Zdigits2 (Zpos m * 6597069766656000) + (e + -41) = 12)%Z as Hd.
    { destruct (Zpos m * 6597069766656000)%Z as [|p|p] eqn:Ep; try lia.
      cbn [Zdigits2]. pose proof (digits2_bounds p) as [Hlo Hhi].
      assert (2 ^ (52 + - e) <= Zpos p)%Z as H1
          by (rewrite Z.pow_add_r by lia; exact Hbig).
      assert (Zpos p < 2 ^ (53 + - e))%Z as H2
          by (rewrite Z.pow_add_r by lia;
              change (2 ^ 53)%Z with 9007199254740992%Z; nia).
      pose proof (Pos2Z.is_pos (digits2_pos p)).
      assert (52 + - e < Zpos (digits2_pos p))%Z
        by (apply (Z.pow_lt_mono_r_iff 2); lia).
      assert (Zpos (digits2_pos p) - 1 < 53 + - e)%Z
        by (apply (Z.pow_lt_mono_r_iff 2); lia).
      lia. }
    destruct (round_upper_nearest (Zpos m * 6597069766656000) (e + -41)
                6597069766655999 12) as [q [e' [Hq [E Hup]]]].
    + lia.
    + rewrite Hd. unfold fexp, emin, prec, emax. lia.
    + rewrite Hd. unfold fexp, emin, prec, emax. lia.
    + unfold emax. lia.
    + rewrite Hd. vm_compute. reflexivity.
    + rewrite Hd.
      replace (fexp prec emax 12 - (e + -41))%Z with (- e)%Z
        by (unfold fexp, emin, prec, emax; lia).
      revert Hmax HTpos. generalize (2 ^ (- e))%Z. intros T.
      change (2 ^ 53)%Z with 9007199254740992%Z. lia.
    + rewrite Hd in Hup.
      change (fexp prec emax 12) with (-41)%Z in Hup.
      exists q, e'. split; [exact Hq|]. split; [exact E|exact Hup].
Qed.

(** [r * 1000] is at most 1000. *)
Lemma table_product (m : positive) (e : Z) :
  (e < 0)%Z -> (Zpos m < 2 ^ (- e))%Z ->
  exists q e',
    (0 <= q)%Z /\
    num_mul (S754_finite false m e) (Num 1000) = nonneg_double q e' /\
    dyadic q e' <= dyadic 1000 0.
Proof.
  intros He HT. rewrite Num_1000. unfold num_mul.
  assert (0 < 2 ^ (- e))%Z as HTpos by (apply Z.pow_pos_nonneg; lia).
  destruct (mul_sandwich m e 8796093022208000 (-43) 10 0 0 1000 0)
    as [q [e' [Hq [E [_ Hup]]]]].
  - apply dyadic_lt_at; [lia|].
    replace (10 - (e + -43))%Z with (53 + - e)%Z by lia.
    rewrite Z.pow_add_r by lia.
    change (2 ^ 53)%Z with 9007199254740992%Z. nia.
  - unfold emin, prec, emax. lia.
  - unfold emax. lia.
  - unfold emax, prec. lia.
  - unfold fexp, emin, prec, emax. lia.
  - unfold fexp, emin, prec, emax. lia.
  - rewrite dyadic_0. apply dyadic_nonneg. lia.
  - apply dyadic_le_at; [lia|].
    replace (0 - (e + -43))%Z with (43 + - e)%Z by lia.
    rewrite Z.pow_add_r by lia.
    change (2 ^ 43)%Z with 8796093022208%Z. nia.
  - exists q, e'. split; [exact Hq|]. split; [exact E|exact Hup].
Qed.

(** Adding 1000 to a product that is at most the double below 3000. *)
Lemma parser_sum (q1 e1 : Z) :
  (0 <= q1)%Z -> dyadic q1 e1 <= dyadic 6597069766655999 (-41) ->
  exists q e,
    (0 <= q)%Z /\
    num_add (nonneg_double q1 e1) (Num 1000) = nonneg_double q e /\
    dyadic 1000 0 <= dyadic q e /\ dyadic q e <= dyadic 8796093022207999 (-41).
Proof.
  intros Hq1 Hup. rewrite Num_1000. unfold num_add.
  pose proof (dyadic_nonneg q1 e1 Hq1) as Hlo.
  assert (dyadic 6597069766655999 (-41) + dyadic 8796093022208000 (-43)
          == dyadic 8796093022207999 (-41)) as Hsum by (vm_compute; reflexivity).
  assert (dyadic 8796093022208000 (-43) == dyadic 1000 0) as Hc
      by (vm_compute; reflexivity).
  assert (dyadic 8796093022207999 (-41) < dyadic 1 12) as H12
      by (vm_compute; reflexivity).
  apply (add_sandwich q1 e1 8796093022208000 (-43) 12 1000 0
           8796093022207999 (-41)).
  - exact Hq1.
  - apply Qle_lt_trans with (2 := H12). rewrite <- Hsum.
    apply Qplus_le_compat; [exact Hup|apply Qle_refl].
  - unfold emin, prec, emax. lia.
  - unfold emax. lia.
  - unfold emax, prec. lia.
  - unfold fexp, emin, prec, emax. lia.
  - unfold fexp, emin, prec, emax. lia.
  - rewrite <- Hc, <- (Qplus_0_l (dyadic 8796093022208000 (-43))) at 1.
    apply Qplus_le_compat; [exact Hlo|apply Qle_refl].
  - rewrite <- Hsum. apply Qplus_le_compat; [exact Hup|apply Qle_refl].
Qed.

(** Adding 500 to a product that is at most 1000. *)
Lemma table_sum (q1 e1 : Z) :
  (0 <= q1)%Z -> dyadic q1 e1 <= dyadic 1000 0 ->
  exists q e,
    (0 <= q)%Z /\
    num_add (nonneg_double q1 e1) (Num 500) = nonneg_double q e /\
    dyadic 500 0 <= dyadic q e /\ dyadic q e <= dyadic 1500 0.
Proof.
  intros Hq1 Hup. rewrite Num_500. unfold num_add.
  pose proof (dyadic_nonneg q1 e1 Hq1) as Hlo.
  assert (dyadic 1000 0 + dyadic 8796093022208000 (-44) == dyadic 1500 0) as Hsum
      by (vm_compute; reflexivity).
  assert (dyadic 8796093022208000 (-44) == dyadic 500 0) as Hc
      by (vm_compute; reflexivity).
  assert (dyadic 1500 0 < dyadic 1 11) as H11 by (vm_compute; reflexivity).
  apply (add_sandwich q1 e1 8796093022208000 (-44) 11 500 0 1500 0).
  - exact Hq1.
  - apply Qle_lt_trans with (2 := H11). rewrite <- Hsum.
    apply Qplus_le_compat; [exact Hup|apply Qle_refl].
  - unfold emin, prec, emax. lia.
  - unfold emax. lia.
  - unfold emax, prec. lia.
  - unfold fexp, emin, prec, emax. lia.
  - unfold fexp, emin, prec, emax. lia.
  - rewrite <- Hc, <- (Qplus_0_l (dyadic 8796093022208000 (-44))) at 1.
    apply Qplus_le_compat; [exact Hlo|apply Qle_refl].
  - rewrite <- Hsum. apply Qplus_le_compat; [exact Hup|apply Qle_refl].
Qed.

Lemma is_finite_nonneg_double (q e : Z) : (0 <= q)%Z -> is_finite (nonneg_double q e) = true.
Proof. destruct q; [reflexivity|reflexivity|lia]. Qed.

(** C9, as the code has it.  For every double [r] with [0 <= r < 1], the
    delay of [/start_parser], [r * 3000 + 1000] in binary64 arithmetic, is a
    finite double in [1000, 4000), and the delay of [/start_table_process],
    [r * 1000 + 500], is a finite double in [500, 1500]; the upper end 1500
    is reached at the largest double below 1. *)
Theorem C9_delay_ranges (r : number) :
  unit_draw r ->
  (is_finite (parser_delay r) = true /\
   1000 <= SF2Q (parser_delay r) /\ SF2Q (parser_delay r) < 4000) /\
  (is_finite (table_delay r) = true /\
   500 <= SF2Q (table_delay r) /\ SF2Q (table_delay r) <= 1500).
Proof.
  intros Hr.
  destruct (unit_draw_cases r Hr) as [[s ->]|[m [e [-> [He [HT Hmax]]]]]].
  - destruct s; vm_compute; repeat split; discriminate.
  - split.
    + destruct (parser_product m e He HT Hmax) as [q1 [e1 [Hq1 [E1 Hup1]]]].
      destruct (parser_sum q1 e1 Hq1 Hup1) as [q [e' [Hq [E [Hlo Hup]]]]].
      unfold parser_delay. rewrite E1, E.
      split; [apply is_finite_nonneg_double; exact Hq|].
      rewrite (SF2Q_nonneg_double q e' Hq). split.
      * apply Qle_trans with (2 := Hlo). vm_compute. discriminate.
      * apply Qle_lt_trans with (1 := Hup). vm_compute. reflexivity.
    + destruct (table_product m e He HT) as [q1 [e1 [Hq1 [E1 Hup1]]]].
      destruct (table_sum q1 e1 Hq1 Hup1) as [q [e' [Hq [E [Hlo Hup]]]]].
      unfold table_delay. rewrite E1, E.
      split; [apply is_finite_nonneg_double; exact Hq|].
      rewrite (SF2Q_nonneg_double q e' Hq). split.
      * apply Qle_trans with (2 := Hlo). vm_compute. discriminate.
      * apply Qle_trans with (1 := Hup). vm_compute. discriminate.
Qed.

End Rounding.

(** ** Closed instances *)

Example C1_capacity_fifo_witness :
  let w := snd (addLogs demo_runtime (repeat ("sale", "m") 20) (world boot)) in
  array_of (mockLogs (snd (addLog demo_runtime "SALE" "last" w))) "Sale" =
  (tl (array_of (mockLogs w) "Sale") ++ [log_line demo_runtime w "last"])%list.
Proof.
  intros w.
  refine (proj2 (proj2 (proj2 (proj2 (C1_capacity_fifo demo_runtime)))
                   "SALE" "last" w _) _).
  - vm_compute. reflexivity.
  - vm_compute. repeat constructor.
Defined.

Example C10_keys_constant_and_frame_witness :
  mockLogs (snd (addLog demo_runtime "Foo" "x" (world boot))) =
  mockLogs (world boot).
Proof.
  apply (proj1 (proj2 (proj2 (proj2
           (C10_keys_constant_and_frame demo_runtime))))).
  intros k Hin. vm_compute in Hin.
  repeat (destruct Hin as [<-|Hin]; [vm_compute; discriminate|]).
  contradiction.
Defined.

Example C4_missing_parameter_witness :
  snd (step demo_runtime
         (GET_start_parser (demo_request Undefined Undefined Undefined "x"))
         boot) =
    Some {| statusCode := 400;
            body := [ ("status", JNumber 400);
                      ("message", JString ("Query parameter " ++ DQ ++ "parser"
                                           ++ DQ ++ " is required")) ] |} /\
  snd (step demo_runtime
         (GET_start_table_process
            (demo_request Undefined (JStr EmptyString) Undefined "x"))
         boot) =
    Some {| statusCode := 400;
            body := [ ("status", JNumber 400);
                      ("message", JString ("Query parameter " ++ DQ ++ "method"
                                           ++ DQ ++ " is required")) ] |}.
Proof.
  split.
  - apply (proj1 (C4_missing_parameter demo_runtime
                    (demo_request Undefined Undefined Undefined "x") boot)).
    reflexivity.
  - apply (proj2 (C4_missing_parameter demo_runtime
                    (demo_request Undefined (JStr EmptyString) Undefined "x")
                    boot)).
    reflexivity.
Defined.

Example C7_get_logs_unknown_witness :
  fst (get_logs demo_runtime
         (demo_request Undefined Undefined Undefined "Foo") (world boot)) =
  Replied {| statusCode := 404;
             body := [ ("status", JNumber 404);
                       ("message",
                        JString "No logs found for unknown parser: Foo") ] |}.
Proof.
  apply (C7_get_logs_unknown demo_runtime
           (demo_request Undefined Undefined Undefined "Foo") (world boot)).
  intros k Hin. vm_compute in Hin.
  repeat (destruct Hin as [<-|Hin]; [vm_compute; discriminate|]).
  contradiction.
Defined.

Example C3_failure_only_for_CurrencyInfo_witness :
  let req := demo_request (JStr "currencyinfo") Undefined Undefined "x" in
  exists delay callback,
    fst (start_parser demo_runtime req (world boot)) =
      Scheduled delay callback /\
    statusCode
      (fst (callback (snd (start_parser demo_runtime req (world boot))))) = 500%Z
    /\
    statusCode (fst (callback (world boot))) = 200%Z.
Proof.
  intros req.
  destruct (C3_failure_only_for_CurrencyInfo demo_runtime req (world boot)
              eq_refl) as [delay [callback [Ef Hcb]]].
  exists delay, callback. split; [exact Ef|]. split.
  - rewrite Hcb. vm_compute. reflexivity.
  - rewrite Hcb. vm_compute. reflexivity.
Defined.

Example C8_table_process_always_succeeds_witness :
  let req := demo_request Undefined (JStr "set_shop_price")
               (JStr ("[" ++ DQ ++ "wrong" ++ DQ ++ "]")) "x" in
  exists delay callback,
    fst (start_table_process demo_runtime req (world boot)) =
      Scheduled delay callback /\
    statusCode (fst (callback (world boot))) = 200%Z.
Proof.
  intros req.
  destruct (C8_table_process_always_succeeds demo_runtime req (world boot)
              eq_refl) as [delay [callback [Ef [_ [_ Hcb]]]]].
  exists delay, callback. split; [exact Ef|].
  rewrite (proj1 (Hcb (world boot))). reflexivity.
Defined.

Example C2_entries_for_matched_names_witness :
  let req := demo_request (JStr "sale") Undefined Undefined "x" in
  array_of (mockLogs (snd (start_parser demo_runtime req (world boot)))) "Sale" =
  ["[2024-01-01T00:00:00.1Z] Parser start requested."].
Proof.
  intros req.
  destruct (C2_entries_for_matched_names demo_runtime req (world boot) eq_refl)
    as [delay [callback [_ [Hmatched _]]]].
  exact (proj1 (proj1 (Hmatched eq_refl))).
Defined.

Example C5_logs_of_known_name_witness :
  fst (get_logs demo_runtime
         (demo_request Undefined Undefined Undefined "SALE") (world boot)) =
  Replied {| statusCode := 200;
             body := [ ("status", JNumber 200);
                       ("message",
                        JString ("[2024-01-01T00:00:00.1Z] "
                                 ++ "No logs recorded yet for Sale.")) ] |}.
Proof.
  exact (proj1 (C5_logs_of_known_name demo_runtime
                  (demo_request Undefined Undefined Undefined "SALE")
                  (world boot) eq_refl) eq_refl).
Defined.

(** C2 as stated fails: for the unmatched name Foo neither the handler nor
    the callback adds a line; the table stays as it was at start-up, although
    the request is accepted and answered with 200. *)
Example C2_counterexample :
  let req := demo_request (JStr "Foo") Undefined Undefined "x" in
  truthy (query_parser req) = true /\
  mockLogs (world (fst (step demo_runtime (GET_start_parser req) boot))) =
    initial_mockLogs /\
  mockLogs (world (run demo_runtime [GET_start_parser req; Timeout 0] boot)) =
    initial_mockLogs /\
  option_map statusCode
    (snd (step demo_runtime (Timeout 0)
            (fst (step demo_runtime (GET_start_parser req) boot)))) = Some 200%Z.
Proof. vm_compute. repeat split; reflexivity. Qed.

(** C5 as stated fails for Sale: once Sale has a line, the message is not the
    joined lines alone. *)
Example C5_counterexample :
  let w := world (run demo_runtime
                    [GET_start_parser
                       (demo_request (JStr "Sale") Undefined Undefined "x")]
                    boot) in
  let req := demo_request Undefined Undefined Undefined "sale" in
  find_key demo_runtime (mockLogs w) (params0 req) = JStr "Sale" /\
  array_of (mockLogs w) "Sale" <> [] /\
  fst (get_logs demo_runtime req w) <>
  Replied {| statusCode := 200;
             body := [ ("status", JNumber 200);
                       ("message",
                        JString (join LF (array_of (mockLogs w) "Sale"))) ] |}.
Proof.
  intros w req. split; [vm_compute; reflexivity|].
  split; [vm_compute; discriminate|].
  intros H.
  apply (f_equal (fun o => Nat.leb (String.length (reply_message o)) 1000)) in H.
  vm_compute in H. discriminate H.
Qed.

Lemma unit_draw_below_one : unit_draw below_one.
Proof.
  unfold unit_draw. split; [reflexivity|]. split; [reflexivity|].
  split; vm_compute; [discriminate|reflexivity].
Qed.

Example C9_delay_ranges_witness :
  (SF2Q (parser_delay below_one) < 4000)%Q /\
  (SF2Q (table_delay below_one) <= 1500)%Q.
Proof.
  destruct (C9_delay_ranges below_one unit_draw_below_one)
    as [[_ [_ Hp]] [_ [_ Ht]]].
  split; [exact Hp|exact Ht].
Defined.

(** C9 as stated fails for the table-process delay: for the largest double
    below 1 the product rounds to [1000 - 2^-43] and the sum, halfway between
    two doubles, rounds to even, which is 1500 itself. *)
Example C9_counterexample :
  unit_draw below_one /\
  table_delay below_one = Num 1500 /\
  ~ (SF2Q (table_delay below_one) < 1500)%Q.
Proof.
  split; [exact unit_draw_below_one|].
  split; [reflexivity|].
  vm_compute. discriminate.
Qed.

(** * Further properties of the handlers *)

Lemma NoDup_map_eq {A B : Type} (f : A -> B) (l : list A) (x y : A) :
  NoDup (map f l) -> In x l -> In y l -> f x = f y -> x = y.
Proof.
  induction l as [|a l IH]; cbn [map]; intros Hnd Hx Hy Hf; [contradiction|].
  inversion Hnd as [|b l' Hnotin Hnd']; subst.
  destruct Hx as [->|Hx], Hy as [->|Hy].
  - reflexivity.
  - exfalso. apply Hnotin. rewrite Hf. apply in_map. exact Hy.
  - exfalso. apply Hnotin. rewrite <- Hf. apply in_map. exact Hx.
  - exact (IH Hnd' Hx Hy Hf).
Qed.

Lemma array_find_first (p : string -> bool) (xs : list string) (k : string) :
  In k xs -> p k = true -> exists x, array_find p xs = JStr x /\ In x xs /\ p x = true.
Proof.
  induction xs as [|a xs IH]; cbn [array_find]; intros Hin Hp; [contradiction|].
  destruct (p a) eqn:Ha.
  - exists a. repeat split; [left; reflexivity|exact Ha].
  - destruct Hin as [->|Hin]; [congruence|].
    destruct (IH Hin Hp) as [x [E [Hx Hpx]]].
    exists x. repeat split; [exact E|right; exact Hx|exact Hpx].
Qed.

Lemma pushed_skipn (old : list string) (line : string) :
  (List.length old <= 20)%nat ->
  pushed old line = skipn (List.length old + 1 - 20) (old ++ [line])%list.
Proof.
  intros Hlen. unfold pushed.
  destruct (Nat.ltb_spec 20 (List.length old + 1)) as [H|H].
  - replace (List.length old + 1 - 20)%nat with 1%nat by lia.
    destruct (old ++ [line])%list; reflexivity.
  - replace (List.length old + 1 - 20)%nat with 0%nat by lia. reflexivity.
Qed.

Lemma pushed_length (old : list string) (line : string) :
  (List.length old <= 20)%nat ->
  List.length (pushed old line) = Nat.min (List.length old + 1) 20.
Proof.
  intros Hlen. rewrite pushed_skipn by exact Hlen.
  rewrite length_skipn, length_app. cbn [List.length]. lia.
Qed.

Section MoreProperties.

Variable rt : Runtime.

(** X1. Lookup is case-insensitive and canonical: when the keys of the table
    stay distinct after lower-casing, a name resolves to the key [k] exactly
    when the two are equal up to case. *)
Theorem find_key_case_insensitive (s : LogStore) (name k : string) :
  NoDup (map (toLowerCase rt) (Object_keys s)) ->
  In k (Object_keys s) ->
  (find_key rt s name = JStr k <->
   toLowerCase rt k = toLowerCase rt name).
Proof.
  intros Hnd Hin. split.
  - intros H. exact (proj2 (find_key_In rt _ _ _ H)).
  - intros Hl. unfold find_key.
    destruct (array_find_first
                (fun x => String.eqb (toLowerCase rt x) (toLowerCase rt name))
                (Object_keys s) k Hin) as [x [E [Hx Hpx]]].
    + apply String.eqb_eq. exact Hl.
    + rewrite E. f_equal. apply String.eqb_eq in Hpx.
      apply (NoDup_map_eq (toLowerCase rt) (Object_keys s)); try assumption.
      congruence.
Qed.

Lemma addLogs_same_name_step (name message : string) (w : World) :
  truthy (find_key rt (mockLogs w) name) = true ->
  let w1 := snd (addLog rt name message w) in
  find_key rt (mockLogs w1) name = find_key rt (mockLogs w) name /\
  clock w1 = S (clock w).
Proof.
  intros Ht w1. split.
  - apply find_key_keys. apply addLog_keys.
  - unfold w1. rewrite addLog_clock, Ht. reflexivity.
Qed.

(** X2. The array under a key is a window on the most recent lines: after
    any number of [addLog] calls for a name that matches the key, it holds the
    last 20 of the lines it had plus the new ones, oldest first, each new line
    stamped with the clock reading of its own call. *)
Theorem addLogs_keeps_most_recent (name : string) (messages : list string)
  (w : World) :
  truthy (find_key rt (mockLogs w) name) = true ->
  let k := ToString (find_key rt (mockLogs w) name) in
  let old := array_of (mockLogs w) k in
  (List.length old <= 20)%nat ->
  array_of
    (mockLogs (snd (addLogs rt (map (fun m => (name, m)) messages) w))) k =
  skipn (List.length old + List.length messages - 20)
    (old ++ map (fun tm : nat * string =>
                   ("[" ++ now_iso rt (fst tm) ++ "] " ++ snd tm)%string)
              (combine (seq (clock w) (List.length messages)) messages))%list.
Proof.
  revert w. induction messages as [|m messages IH]; intros w Ht k old Hlen.
  - cbn [map addLogs List.length seq combine]. unfold ret. cbn [snd].
    rewrite app_nil_r, Nat.add_0_r.
    replace (List.length old - 20)%nat with 0%nat by lia. reflexivity.
  - cbn [map addLogs]. rewrite bind_run.
    destruct (addLogs_same_name_step name m w Ht) as [Hkey Hclock].
    destruct (addLog_effect rt name m w Ht) as [Hnew _].
    fold k in Hnew. fold old in Hnew.
    set (w1 := snd (addLog rt name m w)) in *.
    assert (truthy (find_key rt (mockLogs w1) name) = true) as Ht1
        by (rewrite Hkey; exact Ht).
    specialize (IH w1 Ht1). cbv zeta in IH. rewrite Hkey in IH. fold k in IH.
    rewrite Hnew, Hclock in IH.
    rewrite IH by (rewrite pushed_length by exact Hlen; lia).
    rewrite pushed_length by exact Hlen.
    rewrite pushed_skipn by exact Hlen.
    cbn [List.length seq combine map fst snd]. unfold log_line.
    set (line := "[" ++ now_iso rt (clock w) ++ "] " ++ m).
    set (rest := map _ (combine _ messages)).
    replace (old ++ line :: rest)%list with ((old ++ [line]) ++ rest)%list
      by (rewrite <- app_assoc; reflexivity).
    destruct (Nat.le_gt_cases (List.length old + 1) 20) as [Hle|Hgt].
    + replace (List.length old + 1 - 20)%nat with 0%nat by lia.
      cbn [skipn]. f_equal. lia.
    + assert (List.length old = 20%nat) as H20 by lia.
      replace (List.length old + 1 - 20)%nat with 1%nat by lia.
      replace (skipn 1 (old ++ [line]) ++ rest)%list
        with (skipn 1 ((old ++ [line]) ++ rest))%list
        by (destruct old; [discriminate H20|reflexivity]).
      rewrite skipn_skipn. f_equal. lia.
Qed.

(** X3. What one [addLog] call does besides the table: it never takes a
    random draw; for a matched name it reads the clock once and prints one
    "Log added" line; for an unmatched name it only prints one warning. *)
Theorem addLog_console_and_clock (name message : string) (w : World) :
  let key := find_key rt (mockLogs w) name in
  let w' := snd (addLog rt name message w) in
  rng w' = rng w /\
  (truthy key = true ->
   clock w' = S (clock w) /\
   console w' =
     (console w
      ++ [(LOG, ("Log added for " ++ ToString key ++ ": " ++ message)%string)])%list)
  /\
  (truthy key = false ->
   w' = {| mockLogs := mockLogs w;
           console :=
             (console w
              ++ [(WARN, ("Attempted to add log for unknown parser: "
                          ++ name)%string)])%list;
           clock := clock w; rng := rng w |}).
Proof.
  intros key w'. split; [apply addLog_rng|]. split; intros Ht.
  - unfold w', addLog. js_run. fold key. rewrite Ht. js_run.
    match goal with |- context [Nat.ltb 20 ?n] => destruct (Nat.ltb 20 n) end;
      js_run; split; reflexivity.
  - unfold w', addLog. js_run. fold key. rewrite Ht. js_run. reflexivity.
Qed.

Lemma pushed_last (old : list string) (line d : string) :
  last (pushed old line) d = line.
Proof.
  unfold pushed. destruct (Nat.ltb_spec 20 (List.length old + 1)) as [H|H].
  - destruct old as [|x xs]; [simpl in H; lia|].
    cbn [app tl]. apply last_last.
  - apply last_last.
Qed.

(** X4. The last line under a job's key tells the outcome that was sent:
    when the timer callback of [/start_parser] runs for a resolved name that
    matches a key, the newest line of that key's array is the FAILED line if
    the answer has status 500 and the "finished successfully" line
    otherwise. *)
Theorem callback_logs_the_outcome (name eff : string) (v : World) :
  truthy (find_key rt (mockLogs v) eff) = true ->
  let k := ToString (find_key rt (mockLogs v) eff) in
  let r := fst (start_parser_callback rt name eff v) in
  last (array_of (mockLogs (snd (start_parser_callback rt name eff v))) k)
       EmptyString =
  "[" ++ now_iso rt (clock v) ++ "] "
  ++ (if Z.eqb (statusCode r) 500 then "Parser execution FAILED."
      else "Parser execution finished successfully.").
Proof.
  intros Ht k r.
  destruct (start_parser_callback_run rt name eff v) as [Er [v1 [Ev [Cv Es]]]].
  set (fail := String.eqb eff "CurrencyInfo"
               && num_lt (random rt (rng v)) num_0_2) in *.
  assert (truthy (find_key rt (mockLogs v1) eff) = true) as Ht1
      by (rewrite Ev; exact Ht).
  destruct (addLog_effect rt eff
              (if fail then "Parser execution FAILED."
               else "Parser execution finished successfully.") v1 Ht1)
    as [Hin _].
  rewrite Ev in Hin. fold k in Hin.
  rewrite Es, Hin, pushed_last. unfold log_line. rewrite Cv.
  unfold r. rewrite Er. destruct fail; reflexivity.
Qed.

Lemma pushed_not_empty (old : list string) (line : string) :
  Nat.ltb 0 (List.length (pushed old line)) = true.
Proof.
  apply Nat.ltb_lt. unfold pushed.
  destruct (Nat.ltb_spec 20 (List.length old + 1)) as [H|H].
  - destruct old as [|x xs]; [simpl in H; lia|].
    cbn [app tl]. rewrite length_app. cbn [List.length]. lia.
  - rewrite length_app. cbn [List.length]. lia.
Qed.

(** X5. What is logged is what is served: right after [/start_parser] has
    accepted a name that matches a key, [/get_logs] for that name answers 200
    with the key's lines joined by newlines, the "Parser start requested."
    line last (the synthetic block follows when the key is Sale). *)
Theorem start_parser_then_get_logs (req req' : Request) (w : World) :
  truthy (query_parser req) = true ->
  let name := ToString (query_parser req) in
  let key := find_key rt (mockLogs w) name in
  let k := ToString key in
  truthy key = true ->
  params0 req' = name ->
  let w' := snd (start_parser rt req w) in
  fst (get_logs rt req' w') =
  Replied
    (logs_reply
       (join LF
          (pushed (array_of (mockLogs w) k)
             ("[" ++ now_iso rt (S (clock w)) ++ "] Parser start requested."))
        ++ (if String.eqb k "Sale" then long_log_block rt (rng w')
            else EmptyString))).
Proof.
  intros Ht name key k Hk Hreq w'.
  destruct (start_parser_present rt req w Ht) as [w1 [E1 [C1 [_ Es]]]].
  fold name in Es. fold w' in Es.
  destruct (find_key_effective rt (mockLogs w) name) as [Htr Heq].
  fold key in Htr, Heq. specialize (Heq Hk).
  set (eff := effective_name rt (mockLogs w) name) in *.
  assert (truthy (find_key rt (mockLogs w1) eff) = true) as Ht1
      by (rewrite E1, Htr; exact Hk).
  destruct (addLog_effect rt eff "Parser start requested." w1 Ht1) as [Hin _].
  rewrite E1, Heq in Hin. fold k in Hin. unfold log_line in Hin.
  rewrite C1, <- Es in Hin.
  assert (find_key rt (mockLogs w') name = key) as Hkey'.
  { apply find_key_keys. rewrite Es, addLog_keys, E1. reflexivity. }
  destruct (get_logs_run rt req' w') as [Ef _].
  rewrite Hreq, Hkey', Hk in Ef. fold k in Ef. rewrite Hin in Ef.
  rewrite pushed_not_empty, andb_true_r in Ef. exact Ef.
Qed.

Lemma get_logs_rng (req : Request) (w : World) :
  let key := find_key rt (mockLogs w) (params0 req) in
  let arr := array_of (mockLogs w) (ToString key) in
  rng (snd (get_logs rt req w)) =
  (rng w
   + (if truthy key && String.eqb (ToString key) "Sale"
         && Nat.ltb 0 (List.length arr)
      then 500 else 0))%nat.
Proof.
  intros key arr.
  destruct (truthy key) eqn:Hkey;
    [destruct (Nat.ltb 0 (List.length arr)) eqn:Hlen;
     destruct (String.eqb (ToString key) "Sale") eqn:Hsale|];
    cbn [andb]; unfold get_logs; js_run; fold key;
    rewrite Hkey; js_run; [fold arr; rewrite Hlen; js_run; fold arr;
                           rewrite Hlen, Hsale; cbn [andb]; js_run ..|];
    rewrite ?long_log_loop_run; js_run; lia.
Qed.

(** X6. [/get_logs] only reads: whatever the name, the request is answered
    at once, arms no timer and leaves the table as it was; it takes 500
    random draws when it adds the synthetic block and none otherwise. *)
Theorem get_logs_is_read_only (req : Request) (sv : Server) :
  let key := find_key rt (mockLogs (world sv)) (params0 req) in
  let arr := array_of (mockLogs (world sv)) (ToString key) in
  let after := step rt (GET_get_logs req) sv in
  (exists r, snd after = Some r) /\
  pending (fst after) = pending sv /\
  mockLogs (world (fst after)) = mockLogs (world sv) /\
  rng (world (fst after)) =
    (rng (world sv)
     + (if truthy key && String.eqb (ToString key) "Sale"
           && Nat.ltb 0 (List.length arr)
        then 500 else 0))%nat.
Proof.
  intros key arr after. unfold after. cbn [step]. unfold handle.
  destruct (get_logs_run rt req (world sv)) as [Ef Es].
  pose proof (get_logs_rng req (world sv)) as Hrng. cbv zeta in Hrng.
  fold key in Hrng. fold arr in Hrng.
  rewrite Ef. fold key. revert Hrng.
  destruct (truthy key); intros Hrng; cbn [fst snd world pending];
    (split; [eexists; reflexivity|]); (split; [reflexivity|]);
    (split; [exact Es|exact Hrng]).
Qed.

(** *** What the armed timers are, along every run *)

Lemma get_logs_replies (req : Request) (w : World) :
  exists r, fst (get_logs rt req w) = Replied r.
Proof.
  destruct (get_logs_run rt req w) as [Ef _]. rewrite Ef.
  destruct (truthy _); eexists; reflexivity.
Qed.

Section TimerInvariant.

Variable Q : number * M Response -> Prop.

Hypothesis Q_parser :
  forall req w d cb, fst (start_parser rt req w) = Scheduled d cb -> Q (d, cb).

Hypothesis Q_table :
  forall req w d cb,
    fst (start_table_process rt req w) = Scheduled d cb -> Q (d, cb).

Lemma handle_timers (h : M Outcome) (sv : Server) :
  (forall d cb, fst (h (world sv)) = Scheduled d cb -> Q (d, cb)) ->
  Forall Q (pending sv) -> Forall Q (pending (fst (handle h sv))).
Proof.
  intros Hh Hpend. unfold handle.
  destruct (fst (h (world sv))) as [r|d cb] eqn:E; cbn [fst pending].
  - exact Hpend.
  - apply Forall_app. split; [exact Hpend|].
    constructor; [apply Hh; reflexivity|constructor].
Qed.

Lemma step_timers (ev : Event) (sv : Server) :
  Forall Q (pending sv) -> Forall Q (pending (fst (step rt ev sv))).
Proof.
  intros Hpend. destruct ev as [|req|req|req|req|n]; cbn [step].
  - exact Hpend.
  - apply handle_timers; [apply Q_parser|exact Hpend].
  - apply handle_timers; [apply Q_table|exact Hpend].
  - apply handle_timers; [|exact Hpend]. intros d cb E.
    destruct (get_logs_replies req (world sv)) as [r Er]. congruence.
  - apply handle_timers; [|exact Hpend]. intros d cb E.
    rewrite (proj1 (fallback_run rt req (world sv))) in E. discriminate E.
  - unfold fire. destruct (nth_error (pending sv) n) as [[d cb]|];
      cbn [fst pending]; [|exact Hpend].
    rewrite Forall_forall in *. intros t Ht. apply Hpend.
    apply in_app_or in Ht. destruct Ht as [Ht|Ht].
    + rewrite <- (firstn_skipn n (pending sv)). apply in_or_app. left. exact Ht.
    + rewrite <- (firstn_skipn (S n) (pending sv)).
      apply in_or_app. right. exact Ht.
Qed.

Lemma run_timers (evs : list Event) (sv : Server) :
  Forall Q (pending sv) -> Forall Q (pending (run rt evs sv)).
Proof.
  revert sv. induction evs as [|ev evs IH]; intros sv H; cbn [run].
  - exact H.
  - apply IH. apply step_timers. exact H.
Qed.

End TimerInvariant.

Lemma effective_name_lower (s : LogStore) (name : string) :
  toLowerCase rt (effective_name rt s name) = toLowerCase rt name.
Proof.
  unfold effective_name. destruct (truthy (find_key rt s name)) eqn:Ht.
  - rewrite or_else_truthy by exact Ht.
    destruct (truthy_JStr _ Ht) as [Hk _].
    exact (proj2 (find_key_In rt _ _ _ Hk)).
  - rewrite or_else_falsy by exact Ht. reflexivity.
Qed.

Lemma start_parser_outcome (req : Request) (w : World) :
  (truthy (query_parser req) = false /\
   fst (start_parser rt req w) = Replied missing_parser) \/
  (truthy (query_parser req) = true /\
   fst (start_parser rt req w) =
     Scheduled (parser_delay (random rt (rng w)))
       (start_parser_callback rt (ToString (query_parser req))
          (effective_name rt (mockLogs w) (ToString (query_parser req))))).
Proof.
  destruct (truthy (query_parser req)) eqn:Ht.
  - right. split; [reflexivity|].
    destruct (start_parser_present rt req w Ht) as [w1 [_ [_ [Ef _]]]].
    exact Ef.
  - left. split; [reflexivity|].
    exact (proj1 (start_parser_missing rt req w Ht)).
Qed.

Lemma start_table_process_outcome (req : Request) (w : World) :
  (truthy (query_method req) = false /\
   fst (start_table_process rt req w) = Replied missing_method) \/
  (truthy (query_method req) = true /\
   fst (start_table_process rt req w) =
     Scheduled (table_delay (random rt (rng w)))
       (start_table_process_callback (ToString (query_method req)))).
Proof.
  destruct (truthy (query_method req)) eqn:Ht.
  - right. split; [reflexivity|].
    exact (proj1 (start_table_process_present rt req w Ht)).
  - left. split; [reflexivity|].
    exact (proj1 (start_table_process_missing rt req w Ht)).
Qed.

Lemma run_timer_origin (evs : list Event) :
  Forall (fun t => timer_origin rt (snd t)) (pending (run rt evs boot)).
Proof.
  apply run_timers; [| |constructor].
  - intros req w d cb E.
    destruct (start_parser_outcome req w) as [[_ E']|[_ E']];
      rewrite E' in E; [discriminate E|].
    injection E as _ <-. left. eexists. eexists.
    split; [reflexivity|apply effective_name_lower].
  - intros req w d cb E.
    destruct (start_table_process_outcome req w) as [[_ E']|[_ E']];
      rewrite E' in E; [discriminate E|].
    injection E as _ <-. right. eexists. reflexivity.
Qed.

(** The answers the server can send, in any state it can reach. *)
Lemma response_cases (evs : list Event) (ev : Event) (r : Response) :
  snd (step rt ev (run rt evs boot)) = Some r ->
  r = missing_parser \/ r = missing_method \/
  (exists logsToSend, r = logs_reply logsToSend) \/
  (exists name, r = unknown_parser_logs name) \/
  r = endpoint_not_found \/
  (exists methodName, r = table_success methodName) \/
  (exists name, r = parser_success name) \/
  (exists name, r = parser_failure name /\
                toLowerCase rt name = toLowerCase rt "CurrencyInfo").
Proof.
  pose proof (run_timer_origin evs) as Hpend.
  set (sv := run rt evs boot) in *.
  destruct ev as [|req|req|req|req|n]; cbn [step]; unfold handle.
  - discriminate.
  - destruct (start_parser_outcome req (world sv)) as [[_ E]|[_ E]];
      rewrite E; cbn [snd]; [|discriminate].
    intros [= <-]. left. reflexivity.
  - destruct (start_table_process_outcome req (world sv)) as [[_ E]|[_ E]];
      rewrite E; cbn [snd]; [|discriminate].
    intros [= <-]. right. left. reflexivity.
  - destruct (get_logs_run rt req (world sv)) as [Ef _]. rewrite Ef.
    destruct (truthy _); cbn [snd]; intros [= <-].
    + right. right. left. eexists. reflexivity.
    + right. right. right. left. eexists. reflexivity.
  - rewrite (proj1 (fallback_run rt req (world sv))). cbn [snd].
    intros [= <-]. do 4 right. left. reflexivity.
  - unfold fire. destruct (nth_error (pending sv) n) as [[d cb]|] eqn:Hn;
      cbn [snd]; [|discriminate].
    intros [= <-]. apply nth_error_In in Hn.
    rewrite Forall_forall in Hpend. specialize (Hpend _ Hn). cbn [snd] in Hpend.
    destruct Hpend as [[name [eff [-> Hlow]]]|[methodName ->]].
    + destruct (start_parser_callback_run rt name eff (world sv)) as [Er _].
      rewrite Er.
      destruct (String.eqb_spec eff "CurrencyInfo") as [Heff|_]; cbn [andb].
      * destruct (num_lt _ _).
        -- do 7 right. exists name. split; [reflexivity|].
           rewrite <- Hlow, Heff. reflexivity.
        -- do 6 right. left. exists name. reflexivity.
      * do 6 right. left. exists name. reflexivity.
    + rewrite (proj1 (start_table_process_callback_run methodName (world sv))).
      do 5 right. left. exists methodName. reflexivity.
Qed.

(** X7. Every answer the server sends, in any run, has status 200, 400, 404
    or 500, and its JSON body starts with a [status] field equal to the HTTP
    status followed by a [message] string. *)
Theorem responses_are_well_formed (evs : list Event) (ev : Event)
  (r : Response) :
  snd (step rt ev (run rt evs boot)) = Some r ->
  In (statusCode r) [200; 400; 404; 500]%Z /\
  exists message rest,
    body r = ("status", JNumber (statusCode r))
             :: ("message", JString message) :: rest.
Proof.
  intros H. apply response_cases in H.
  destruct H as [->|[->|[[m ->]|[[n ->]|[->|[[m ->]|[[n ->]|[n [-> _]]]]]]]]];
    cbn [statusCode body missing_parser missing_method logs_reply
         unknown_parser_logs endpoint_not_found table_success parser_success
         parser_failure res_status_json In];
    (split; [tauto|eexists; eexists; reflexivity]).
Qed.


Lemma run_without_start_parser (evs : list Event) (sv : Server) :
  Forall (fun t => exists m, snd t = start_table_process_callback m)
    (pending sv) ->
  (forall req, ~ In (GET_start_parser req) evs) ->
  mockLogs (world (run rt evs sv)) = mockLogs (world sv).
Proof.
  revert sv. induction evs as [|ev evs IH]; intros sv Hpend Hno; cbn [run].
  - reflexivity.
  - assert (forall req, ~ In (GET_start_parser req) evs) as Hno'
        by (intros req Hin; apply (Hno req); right; exact Hin).
    destruct ev as [|req|req|req|req|n]; cbn [step].
    + rewrite IH; [apply on_listening_mockLogs|exact Hpend|exact Hno'].
    + exfalso. apply (Hno req). left. reflexivity.
    + unfold handle.
      destruct (start_table_process_outcome req (world sv)) as [[Ht E]|[Ht E]];
        rewrite E; cbn [fst]; (rewrite IH; [|cbn [pending]|exact Hno']);
        cbn [world].
      * exact (proj2 (start_table_process_missing rt req (world sv) Ht)).
      * exact Hpend.
      * exact (proj2 (start_table_process_present rt req (world sv) Ht)).
      * apply Forall_app. split; [exact Hpend|].
        constructor; [eexists; reflexivity|constructor].
    + unfold handle. destruct (get_logs_run rt req (world sv)) as [Ef Es].
      destruct (get_logs_replies req (world sv)) as [r Er]. rewrite Er.
      cbn [fst]. rewrite IH; [exact Es|exact Hpend|exact Hno'].
    + unfold handle. destruct (fallback_run rt req (world sv)) as [Ef Es].
      rewrite Ef. cbn [fst]. rewrite IH; [exact Es|exact Hpend|exact Hno'].
    + unfold fire.
      destruct (nth_error (pending sv) n) as [[d cb]|] eqn:Hn; cbn [fst].
      * pose proof Hpend as Hall. rewrite Forall_forall in Hall.
        destruct (Hall _ (nth_error_In _ _ Hn)) as [m Hm]. cbn [snd] in Hm.
        subst cb. rewrite IH; [| |exact Hno']; cbn [world pending].
        -- exact (proj2 (start_table_process_callback_run m (world sv))).
        -- rewrite Forall_forall. intros t Ht. apply Hall.
           apply in_app_or in Ht. destruct Ht as [Ht|Ht].
           ++ rewrite <- (firstn_skipn n (pending sv)).
              apply in_or_app. left. exact Ht.
           ++ rewrite <- (firstn_skipn (S n) (pending sv)).
              apply in_or_app. right. exact Ht.
      * apply IH; [exact Hpend|exact Hno'].
Qed.

(** X9. Only [/start_parser] writes the table: after any run in which no
    [/start_parser] request was received, whatever else was, the table is
    still the initial one, every array empty. *)
Theorem only_start_parser_writes_the_table (evs : list Event) :
  (forall req, ~ In (GET_start_parser req) evs) ->
  mockLogs (world (run rt evs boot)) = initial_mockLogs.
Proof.
  intros Hno. rewrite run_without_start_parser; [reflexivity| |exact Hno].
  constructor.
Qed.

End MoreProperties.

Section DelaysAndThreshold.

Local Open Scope Z_scope.
Local Open Scope Q_scope.

Variable rt : Runtime.

Lemma parser_delay_range (r : number) :
  unit_draw r ->
  is_finite (parser_delay r) = true /\
  1000 <= SF2Q (parser_delay r) /\ SF2Q (parser_delay r) < 4000.
Proof.
  intros Hr.
  destruct (unit_draw_cases r Hr) as [[s ->]|[m [e [-> [He [HT Hmax]]]]]].
  - destruct s; vm_compute; repeat split; discriminate.
  - destruct (parser_product m e He HT Hmax) as [q1 [e1 [Hq1 [E1 Hup1]]]].
    destruct (parser_sum q1 e1 Hq1 Hup1) as [q [e' [Hq [E [Hlo Hup]]]]].
    unfold parser_delay. rewrite E1, E.
    split; [apply is_finite_nonneg_double; exact Hq|].
    rewrite (SF2Q_nonneg_double q e' Hq). split.
    + apply Qle_trans with (2 := Hlo). vm_compute. discriminate.
    + apply Qle_lt_trans with (1 := Hup). vm_compute. reflexivity.
Qed.

Lemma table_delay_range (r : number) :
  unit_draw r ->
  is_finite (table_delay r) = true /\
  500 <= SF2Q (table_delay r) /\ SF2Q (table_delay r) <= 1500.
Proof.
  intros Hr.
  destruct (unit_draw_cases r Hr) as [[s ->]|[m [e [-> [He [HT _]]]]]].
  - destruct s; vm_compute; repeat split; discriminate.
  - destruct (table_product m e He HT) as [q1 [e1 [Hq1 [E1 Hup1]]]].
    destruct (table_sum q1 e1 Hq1 Hup1) as [q [e' [Hq [E [Hlo Hup]]]]].
    unfold table_delay. rewrite E1, E.
    split; [apply is_finite_nonneg_double; exact Hq|].
    rewrite (SF2Q_nonneg_double q e' Hq). split.
    + apply Qle_trans with (2 := Hlo). vm_compute. discriminate.
    + apply Qle_trans with (1 := Hup). vm_compute. discriminate.
Qed.

(** X10. When every draw of the random source is a double in [0, 1), every
    timer armed in any run of the server has a finite delay of at least 500
    and less than 4000 milliseconds. *)
Theorem armed_delays_in_range (evs : list Event) :
  (forall n, unit_draw (random rt n)) ->
  Forall (fun t => is_finite (fst t) = true /\
                   500 <= SF2Q (fst t) /\ SF2Q (fst t) < 4000)
    (pending (run rt evs boot)).
Proof.
  intros Hdraws. apply run_timers; [| |constructor].
  - intros req w d cb E.
    destruct (start_parser_outcome rt req w) as [[_ E']|[_ E']];
      rewrite E' in E; [discriminate E|].
    injection E as <- _. cbn [fst].
    destruct (parser_delay_range _ (Hdraws (rng w))) as [Hf [Hlo Hup]].
    split; [exact Hf|]. split; [|exact Hup].
    apply Qle_trans with (2 := Hlo). discriminate.
  - intros req w d cb E.
    destruct (start_table_process_outcome rt req w) as [[_ E']|[_ E']];
      rewrite E' in E; [discriminate E|].
    injection E as <- _. cbn [fst].
    destruct (table_delay_range _ (Hdraws (rng w))) as [Hf [Hlo Hup]].
    split; [exact Hf|]. split; [exact Hlo|].
    apply Qle_lt_trans with (1 := Hup). reflexivity.
Qed.

(** X11. The failure test [Math.random() < 0.2] agrees with the order of the
    exact values: for every finite double [r], [r < 0.2] evaluates to true
    exactly when the value of [r] is below the value of the double 0.2. *)
Theorem failure_test_is_value_order (r : number) :
  valid_binary prec emax r = true ->
  is_finite r = true ->
  (num_lt r num_0_2 = true <-> SF2Q r < SF2Q num_0_2).
Proof.
  intros Hvalid Hfin.
  destruct r as [s|s| |s m e]; try discriminate Hfin.
  - split; intros _; [vm_compute|]; reflexivity.
  - destruct s.
    + split; intros _; [|reflexivity].
      cbn [SF2Q cond_Zopp num_0_2].
      change (dyadic (- Zpos m) e < dyadic 7205759403792794 (-55)).
      apply Qlt_trans with (dyadic 0 e).
      * apply dyadic_lt. lia.
      * rewrite dyadic_0. vm_compute. reflexivity.
    + cbn [SF2Q cond_Zopp num_0_2].
      change (inject_Z (Zpos m) * 2 ^ e) with (dyadic (Zpos m) e).
      change (inject_Z 7205759403792794 * 2 ^ (-55))
        with (dyadic 7205759403792794 (-55)).
      cbn [valid_binary] in Hvalid. unfold bounded in Hvalid.
      apply andb_prop in Hvalid. destruct Hvalid as [Hc _].
      unfold canonical_mantissa in Hc. apply Z.eqb_eq in Hc.
      pose proof (digits2_bounds m) as [Hlo Hhi].
      unfold num_lt, SFltb, num_0_2. cbn [SFcompare].
      destruct (Z.compare_spec e (-55)) as [He|He|He].
      * (* same exponent: the mantissas decide *)
        subst e. rewrite Pos.compare_cont_spec. unfold Pos.switch_Eq.
        rewrite <- dyadic_lt. clear Hc Hlo Hhi.
        destruct (Pos.compare_spec m 7205759403792794) as [E|E|E];
          split; intros H; try reflexivity; try discriminate H.
        -- subst m. exact (False_ind _ (Z.lt_irrefl _ H)).
        -- exact E.
        -- assert (7205759403792794 < Z.pos m)%Z as E' by exact E.
           exact (False_ind _ (Z.lt_irrefl _ (Z.lt_trans _ _ _ E' H))).
      * (* smaller exponent: below 2^-3 *)
        split; intros _; [|reflexivity].
        apply dyadic_lt_at; [lia|].
        assert (Zpos m < 2 ^ 53)%Z as H53.
        { apply Z.lt_le_trans with (1 := Hhi).
          apply Z.pow_le_mono_r; [lia|].
          revert Hc. unfold fexp, emin, prec, emax. lia. }
        assert (2 ^ 1 <= 2 ^ (-55 - e))%Z as Hp
            by (apply Z.pow_le_mono_r; lia).
        change (2 ^ 53)%Z with 9007199254740992%Z in H53.
        change (2 ^ 1)%Z with 2%Z in Hp. nia.
      * (* larger exponent: a normal number, at least 2^-2 *)
        split; intros H; [discriminate H|]. exfalso.
        apply (Qlt_not_le _ _ H).
        apply dyadic_le_at; [lia|].
        assert (2 ^ 52 <= Zpos m)%Z as H52.
        { apply Z.le_trans with (2 := Hlo).
          apply Z.pow_le_mono_r; [lia|].
          revert Hc. unfold fexp, emin, prec, emax. lia. }
        assert (2 ^ 1 <= 2 ^ (e - -55))%Z as Hp
            by (apply Z.pow_le_mono_r; lia).
        change (2 ^ 52)%Z with 4503599627370496%Z in H52.
        change (2 ^ 1)%Z with 2%Z in Hp. nia.
Qed.

End DelaysAndThreshold.

(** ** Closed instances of the further properties *)

Lemma unit_draw_zero : unit_draw (S754_zero false).
Proof.
  unfold unit_draw. split; [reflexivity|]. split; [reflexivity|].
  split; vm_compute; [discriminate|reflexivity].
Qed.

Lemma demo_keys_distinct :
  NoDup (map (toLowerCase demo_runtime) (Object_keys initial_mockLogs)).
Proof.
  vm_compute.
  repeat (constructor; [cbn [In]; intuition discriminate|]).
  constructor.
Qed.

Example find_key_case_insensitive_witness :
  find_key demo_runtime initial_mockLogs "cUrReNcYiNfO" = JStr "CurrencyInfo".
Proof.
  apply (find_key_case_insensitive demo_runtime initial_mockLogs).
  - exact demo_keys_distinct.
  - cbn. tauto.
  - reflexivity.
Defined.

Example addLogs_keeps_most_recent_witness :
  array_of
    (mockLogs (snd (addLogs demo_runtime
                      (map (fun m => ("sale", m)) (repeat "m" 22))
                      (world boot)))) "Sale" =
  skipn 2
    (map (fun tm : nat * string =>
            "[" ++ now_iso demo_runtime (fst tm) ++ "] " ++ snd tm)
         (combine (seq 0 22) (repeat "m" 22))).
Proof.
  exact (addLogs_keeps_most_recent demo_runtime "sale" (repeat "m" 22)
           (world boot) eq_refl (Nat.le_0_l 20)).
Defined.

Example addLog_console_and_clock_witness :
  snd (addLog demo_runtime "Foo" "x" (world boot)) =
  {| mockLogs := initial_mockLogs;
     console := [(LOG, "Initializing Mock API...");
                 (WARN, "Attempted to add log for unknown parser: Foo")];
     clock := 0; rng := 0 |}.
Proof.
  exact (proj2 (proj2 (addLog_console_and_clock demo_runtime "Foo" "x"
                         (world boot))) eq_refl).
Defined.

Example callback_logs_the_outcome_witness :
  let v := snd (start_parser demo_runtime
                  (demo_request (JStr "currencyinfo") Undefined Undefined "x")
                  (world boot)) in
  last (array_of
          (mockLogs (snd (start_parser_callback demo_runtime "currencyinfo"
                            "CurrencyInfo" v))) "CurrencyInfo") EmptyString =
  "[2024-01-01T00:00:00.2Z] Parser execution FAILED.".
Proof.
  intros v.
  exact (callback_logs_the_outcome demo_runtime "currencyinfo" "CurrencyInfo"
           v eq_refl).
Defined.

Example start_parser_then_get_logs_witness :
  let req := demo_request (JStr "packageidprice") Undefined Undefined "x" in
  let req' := demo_request Undefined Undefined Undefined "packageidprice" in
  fst (get_logs demo_runtime req'
         (snd (start_parser demo_runtime req (world boot)))) =
  Replied (logs_reply "[2024-01-01T00:00:00.1Z] Parser start requested.").
Proof.
  intros req req'.
  exact (start_parser_then_get_logs demo_runtime req req' (world boot)
           eq_refl eq_refl eq_refl).
Defined.

Example responses_are_well_formed_witness :
  let evs := [GET_start_parser
                (demo_request (JStr "currencyinfo") Undefined Undefined "x")] in
  In 500%Z [200; 400; 404; 500]%Z /\
  exists message rest,
    body (parser_failure "currencyinfo") =
    ("status", JNumber 500) :: ("message", JString message) :: rest.
Proof.
  intros evs.
  exact (responses_are_well_formed demo_runtime evs (Timeout 0)
           (parser_failure "currencyinfo") eq_refl).
Defined.


Example only_start_parser_writes_the_table_witness :
  mockLogs
    (world (run demo_runtime
              [GET_start_table_process
                 (demo_request Undefined (JStr "set_final_price") Undefined "x");
               Timeout 0;
               GET_get_logs
                 (demo_request Undefined Undefined Undefined "Sale");
               Unmatched (demo_request Undefined Undefined Undefined "x")]
              boot)) = initial_mockLogs.
Proof.
  apply only_start_parser_writes_the_table.
  intros req [H|[H|[H|[H|[]]]]]; discriminate H.
Defined.

Example armed_delays_in_range_witness :
  Forall (fun t => is_finite (fst t) = true /\
                   (500 <= SF2Q (fst t))%Q /\ (SF2Q (fst t) < 4000)%Q)
    (pending
       (run demo_runtime
          [GET_start_parser (demo_request (JStr "Sale") Undefined Undefined "x");
           GET_start_table_process
             (demo_request Undefined (JStr "set_final_price") Undefined "x")]
          boot)).
Proof.
  apply armed_delays_in_range.
  intros n. cbn [random demo_runtime].
  destruct (Nat.even n); [exact unit_draw_below_one|exact unit_draw_zero].
Defined.

Example failure_test_is_value_order_witness :
  num_lt below_one num_0_2 = true <->
  (SF2Q below_one < SF2Q num_0_2)%Q.
Proof.
  exact (failure_test_is_value_order below_one eq_refl eq_refl).
Defined.
